(** * Resilient streaming broadcast layer: error handling, circuit breaker,
      retry executor, connection fan-out and stream events.

    Shallow embedding of [backend/error_handler.py],
    [backend/websocket_manager.py] and the stream-event classes of
    [backend/models.py].

    Conventions of the embedding:
    - Python [str] values are [string]s (sequences of 8-bit characters);
      [str.lower] acts on the ASCII letters.
    - [datetime] values are integers: microseconds since the epoch, the
      resolution [datetime] has.  A duration in seconds compared with a
      [timedelta.total_seconds()] is kept in microseconds too.
    - The delays of [RetryStrategy] (Python [float], in seconds) are exact
      rationals [Q]: rounding is not modelled; [random.random()] is an
      argument in [[0, 1)].  [get_delay] is the value of the method where
      it returns, as it does at the attempts 0 to 2 the executor asks it
      for; [get_delay_result] is the method with the [OverflowError] of
      [**], which every policy of the table raises from attempt 1024 on.
    - Dictionaries are [gmap]s, Python sets are [gset]s.
    - Structured logging ([_log_structured], [print]) changes no state that
      the program reads back, and is left out. *)

From Stdlib Require Import ZArith QArith Qabs Qminmax Qpower Lqa String Ascii List Lia.
From stdpp Require Import gmap strings list fin_maps.

Local Open Scope string_scope.
Set Warnings "-clear-no-such-hyp".

(** ** Exceptions *)

(** A raised Python exception: its class name and [str(error)]. *)
Record exn := Exn { exn_class : string; exn_str : string }.

(** ** [backend/error_handler.py] *)

Module ErrorHandler.

(** [class ErrorType(Enum)] *)
Inductive ErrorType :=
  | RATE_LIMIT | TIMEOUT | AUTH_ERROR | SERVICE_ERROR
  | NETWORK_ERROR | VALIDATION_ERROR | UNKNOWN_ERROR.

(** [ErrorType.value] *)
Definition value (t : ErrorType) : string :=
  match t with
  | RATE_LIMIT => "rate_limit"
  | TIMEOUT => "timeout"
  | AUTH_ERROR => "auth_error"
  | SERVICE_ERROR => "service_error"
  | NETWORK_ERROR => "network_error"
  | VALIDATION_ERROR => "validation_error"
  | UNKNOWN_ERROR => "unknown_error"
  end.

(** [class RetryStrategy] *)
Record RetryStrategy := mkRetryStrategy {
  max_retries : Z;
  base_delay : Q;
  max_delay : Q;
  exponential_base : Q;
  jitter : bool
}.

(** [RetryStrategy.__init__] with its keyword defaults
    [max_retries=3, base_delay=1.0, max_delay=60.0, exponential_base=2.0,
    jitter=True]. *)
Definition RetryStrategy_default : RetryStrategy :=
  mkRetryStrategy 3 1 60 2 true.

(** [RetryStrategy.get_delay]; [rnd] is the value [random.random()]
    returns, read only when [jitter] is set. *)
Definition get_delay (self : RetryStrategy) (attempt : nat) (rnd : Q) : Q :=
  let delay := (base_delay self * exponential_base self ^ Z.of_nat attempt)%Q in
  let delay := Qmin delay (max_delay self) in
  if jitter self then (delay * ((1 # 2) + rnd * (1 # 2)))%Q else delay.

(** The state strings ["closed"], ["open"], ["half-open"] of a breaker. *)
Inductive cb_state := Closed | Open | HalfOpen.

(** [class CircuitBreaker] *)
Record CircuitBreaker := mkCircuitBreaker {
  failure_threshold : Z;
  recovery_timeout : Z;
  failure_count : Z;
  last_failure_time : option Z;
  state : cb_state
}.

(** [CircuitBreaker()] : threshold 5, recovery timeout 60.0 s. *)
Definition CircuitBreaker_new : CircuitBreaker :=
  mkCircuitBreaker 5 60000000 0 None Closed.

Definition set_state (s : cb_state) (cb : CircuitBreaker) : CircuitBreaker :=
  mkCircuitBreaker (failure_threshold cb) (recovery_timeout cb)
                   (failure_count cb) (last_failure_time cb) s.

(** The [TypeError] of [datetime.now() - None]. *)
Definition TypeError_sub : exn :=
  Exn "TypeError"
      "unsupported operand type(s) for -: 'datetime.datetime' and 'NoneType'".

(** [CircuitBreaker.can_execute]; [now] is what [datetime.now()] returns.
    The result is the returned boolean and the breaker after the call, or
    the exception raised. *)
Definition can_execute (now : Z) (self : CircuitBreaker)
  : exn + (bool * CircuitBreaker) :=
  match state self with
  | Closed => inr (true, self)
  | Open =>
      match last_failure_time self with
      | None => inl TypeError_sub
      | Some t =>
          if (recovery_timeout self <? now - t)%Z
          then inr (true, set_state HalfOpen self)
          else inr (false, self)
      end
  | HalfOpen => inr (true, self)
  end.

(** [CircuitBreaker.record_success] *)
Definition record_success (self : CircuitBreaker) : CircuitBreaker :=
  mkCircuitBreaker (failure_threshold self) (recovery_timeout self)
                   0 (last_failure_time self) Closed.

(** [CircuitBreaker.record_failure] *)
Definition record_failure (now : Z) (self : CircuitBreaker) : CircuitBreaker :=
  let count := (failure_count self + 1)%Z in
  mkCircuitBreaker (failure_threshold self) (recovery_timeout self)
                   count (Some now)
                   (if (failure_threshold self <=? count)%Z
                    then Open else state self).

(** [ErrorHandler.retry_strategies], the table built in [__init__] and
    never written afterwards. *)
Definition retry_strategies (t : ErrorType) : RetryStrategy :=
  match t with
  | RATE_LIMIT => mkRetryStrategy 5 2 120 2 true
  | TIMEOUT => mkRetryStrategy 3 1 30 2 true
  | SERVICE_ERROR => mkRetryStrategy 3 5 60 2 true
  | NETWORK_ERROR => mkRetryStrategy 4 1 30 2 true
  | AUTH_ERROR => mkRetryStrategy 0 1 60 2 true
  | VALIDATION_ERROR => mkRetryStrategy 0 1 60 2 true
  | UNKNOWN_ERROR => mkRetryStrategy 2 2 30 2 true
  end.

(** [str.lower] on one character. *)
Definition lower_ascii (c : ascii) : ascii :=
  let n := nat_of_ascii c in
  if (65 <=? n)%nat && (n <=? 90)%nat then ascii_of_nat (n + 32) else c.

(** [str.lower] *)
Fixpoint lower (s : string) : string :=
  match s with
  | EmptyString => EmptyString
  | String c s' => String (lower_ascii c) (lower s')
  end.

(** [needle in hay] on strings. *)
Fixpoint contains (needle hay : string) : bool :=
  String.prefix needle hay ||
  match hay with
  | EmptyString => false
  | String _ hay' => contains needle hay'
  end.

(** [ErrorHandler.classify_error].  [if status_code:] is false for [None]
    and for [0]. *)
Definition classify_error (error : exn) (status_code : option Z) : ErrorType :=
  let by_message :=
    let error_str := lower (exn_str error) in
    if contains "timeout" error_str || contains "timed out" error_str
    then TIMEOUT
    else if contains "rate limit" error_str
            || contains "too many requests" error_str
    then RATE_LIMIT
    else if contains "auth" error_str || contains "unauthorized" error_str
    then AUTH_ERROR
    else if contains "network" error_str || contains "connection" error_str
    then NETWORK_ERROR
    else UNKNOWN_ERROR in
  match status_code with
  | Some code =>
      if (code =? 0)%Z then by_message
      else if (code =? 429)%Z then RATE_LIMIT
      else if (code =? 401)%Z || (code =? 403)%Z then AUTH_ERROR
      else if (500 <=? code)%Z then SERVICE_ERROR
      else if (400 <=? code)%Z then VALIDATION_ERROR
      else by_message
  | None => by_message
  end.

(** [class ErrorHandler]: the mutable part of its state. *)
Record ErrorHandler := mkErrorHandler {
  circuit_breakers : gmap string CircuitBreaker
}.

(** [ErrorHandler()] *)
Definition ErrorHandler_new : ErrorHandler := mkErrorHandler ∅.

(** [ErrorHandler.get_circuit_breaker]: the breaker of [provider], created
    and stored on first use. *)
Definition get_circuit_breaker (self : ErrorHandler) (provider : string)
  : CircuitBreaker * ErrorHandler :=
  match circuit_breakers self !! provider with
  | Some cb => (cb, self)
  | None =>
      (CircuitBreaker_new,
       mkErrorHandler (<[provider := CircuitBreaker_new]> (circuit_breakers self)))
  end.

(** The breaker object is shared with the dictionary: a method called on it
    is seen through [circuit_breakers]. *)
Definition store_breaker (provider : string) (cb : CircuitBreaker)
  (self : ErrorHandler) : ErrorHandler :=
  mkErrorHandler (<[provider := cb]> (circuit_breakers self)).

(** *** [ErrorHandler.execute_with_retry] *)

(** What one [await operation()] does: it returns, or raises an
    [Exception]. *)
Inductive op_result (A : Type) :=
  | OpOk (result : A)
  | OpRaise (error : exn).
Arguments OpOk {A} result.
Arguments OpRaise {A} error.

(** The readings of [datetime.now()] that one call of the executor makes on
    the breaker: in [can_execute], in the [record_failure] before [break],
    and in the [record_failure] after the loop. *)
Record Clock := mkClock { t_check : Z; t_break : Z; t_final : Z }.

(** How the call ends. *)
Inductive outcome (A : Type) :=
  | Return (result : A)
  | Raise (error : exn).
Arguments Return {A} result.
Arguments Raise {A} error.

(** What is observed of one call: how it ends, how many times the operation
    was awaited, the [asyncio.sleep] delays in order, and the handler
    afterwards. *)
Record Run (A : Type) := mkRun {
  run_outcome : outcome A;
  run_calls : nat;
  run_sleeps : list Q;
  run_handler : ErrorHandler
}.
Arguments mkRun {A}.
Arguments run_outcome {A}.
Arguments run_calls {A}.
Arguments run_sleeps {A}.
Arguments run_handler {A}.

(** [raise Exception(f"Circuit breaker open for provider {provider}")] *)
Definition circuit_open_error (provider : string) : exn :=
  Exn "Exception" ("Circuit breaker open for provider " +:+ provider).

(** [raise None] *)
Definition TypeError_raise : exn :=
  Exn "TypeError" "exceptions must derive from BaseException".

(** The locals of the [for attempt in range(...)] loop. *)
Record loop_state := mkLoop {
  ls_breaker : CircuitBreaker;
  ls_last_error : option exn;
  ls_calls : nat;
  ls_sleeps : list Q
}.

(** How the loop is left: [return result], [break], or the range is used up. *)
Inductive loop_exit (A : Type) :=
  | LoopReturn (result : A)
  | LoopBreak
  | LoopEnd.
Arguments LoopReturn {A} result.
Arguments LoopBreak {A}.
Arguments LoopEnd {A}.

Section Executor.
Context {A : Type}.
(** [operation n] is what the [n]-th await of the operation does (counted
    from 0), [rnd n] the value of [random.random()] at attempt [n]. *)
Variable operation : nat → op_result A.
Variable rnd : nat → Q.
Variable clock : Clock.

(** The body of the loop, run for the attempts of [attempts] in order. *)
Fixpoint retry_loop (attempts : list nat) (st : loop_state)
  : loop_exit A * loop_state :=
  match attempts with
  | [] => (LoopEnd, st)
  | attempt :: rest =>
      match operation (ls_calls st) with
      | OpOk result =>
          (LoopReturn result,
           mkLoop (record_success (ls_breaker st)) (ls_last_error st)
                  (S (ls_calls st)) (ls_sleeps st))
      | OpRaise error =>
          let error_type := classify_error error None in
          let retry_strategy := retry_strategies error_type in
          if (max_retries retry_strategy <=? Z.of_nat attempt)%Z
          then
            (LoopBreak,
             mkLoop (record_failure (t_break clock) (ls_breaker st))
                    (Some error) (S (ls_calls st)) (ls_sleeps st))
          else
            let delay := get_delay retry_strategy attempt (rnd attempt) in
            retry_loop rest
              (mkLoop (ls_breaker st) (Some error) (S (ls_calls st))
                      (ls_sleeps st ++ [delay]))
      end
  end.

(** [range(self.retry_strategies[ErrorType.UNKNOWN_ERROR].max_retries + 1)] *)
Definition attempt_range : list nat :=
  seq 0 (Z.to_nat (max_retries (retry_strategies UNKNOWN_ERROR) + 1)).

Definition execute_with_retry (self : ErrorHandler) (provider : string)
  : Run A :=
  let '(circuit_breaker, self) := get_circuit_breaker self provider in
  match can_execute (t_check clock) circuit_breaker with
  | inl error => mkRun (Raise error) 0 [] self
  | inr (false, circuit_breaker) =>
      mkRun (Raise (circuit_open_error provider)) 0 []
            (store_breaker provider circuit_breaker self)
  | inr (true, circuit_breaker) =>
      match retry_loop attempt_range (mkLoop circuit_breaker None 0 []) with
      | (LoopReturn result, st) =>
          mkRun (Return result) (ls_calls st) (ls_sleeps st)
                (store_breaker provider (ls_breaker st) self)
      | (_, st) =>
          (* All retries exhausted *)
          let circuit_breaker := record_failure (t_final clock) (ls_breaker st) in
          mkRun (Raise (default TypeError_raise (ls_last_error st)))
                (ls_calls st) (ls_sleeps st)
                (store_breaker provider circuit_breaker self)
      end
  end.
End Executor.

(** *** Properties of the breaker and of runs of the executor *)

(** The breaker lets the call of [clock] through. *)
Definition permitted (self : ErrorHandler) (provider : string) (clock : Clock)
  : Prop :=
  ∃ cb', can_execute (t_check clock) (get_circuit_breaker self provider).1
         = inr (true, cb').

(** After a call that was let through, no later call is let through while
    the breaker is left alone. *)
Definition one_probe_only (cb : CircuitBreaker) (now : Z) : Prop :=
  ∃ cb', can_execute now cb = inr (true, cb') ∧ state cb' = HalfOpen ∧
         ∀ now' cb'', can_execute now' cb' ≠ inr (true, cb'').

(** A breaker as [CircuitBreaker()] creates it and its methods leave it. *)
Definition breaker_wf (cb : CircuitBreaker) : Prop :=
  failure_threshold cb = 5%Z ∧
  (0 <= failure_count cb)%Z ∧
  (state cb = Closed → (failure_count cb < 5)%Z) ∧
  (state cb ≠ Closed →
     (5 <= failure_count cb)%Z ∧ is_Some (last_failure_time cb)).

Definition handler_wf (self : ErrorHandler) (provider : string) : Prop :=
  ∀ cb, circuit_breakers self !! provider = Some cb → breaker_wf cb.

(** One call of the executor: the operation, the random draws and the clock
    readings it meets. *)
Record Call (A : Type) := mkCall {
  call_operation : nat → op_result A;
  call_rnd : nat → Q;
  call_clock : Clock
}.
Arguments mkCall {A}.
Arguments call_operation {A}.
Arguments call_rnd {A}.
Arguments call_clock {A}.

Definition run_call {A : Type} (self : ErrorHandler) (provider : string)
  (c : Call A) : Run A :=
  execute_with_retry (call_operation c) (call_rnd c) (call_clock c)
                     self provider.

(** Successive calls against one provider. *)
Definition run_calls_on {A : Type} (provider : string) (cs : list (Call A))
  (self : ErrorHandler) : ErrorHandler :=
  foldl (λ h c, run_handler (run_call h provider c)) self cs.

(** Every await of the operation raises. *)
Definition always_fails {A : Type} (operation : nat → op_result A) : Prop :=
  ∀ n, ∃ e, operation n = OpRaise e.

(** Every await of the operation raises an error of kind [K]. *)
Definition always_fails_as {A : Type} (K : ErrorType)
  (operation : nat → op_result A) : Prop :=
  ∀ n, ∃ e, operation n = OpRaise e ∧ classify_error e None = K.

(** The delay of attempt [n] before jitter: [min(base * exp^n, max_delay)]. *)
Definition backoff (p : RetryStrategy) (n : nat) : Q :=
  Qmin (base_delay p * exponential_base p ^ Z.of_nat n) (max_delay p).

Definition nonneg_policy (p : RetryStrategy) : Prop :=
  (0 <= base_delay p)%Q ∧ (0 <= exponential_base p)%Q ∧ (0 <= max_delay p)%Q.

(** The kind a status code stands for, in the priority order of the
    classifier: 429, then 401 and 403, then 500 and above, then the other
    codes from 400. *)
Definition kind_of_status (code : Z) : ErrorType :=
  if (code =? 429)%Z then RATE_LIMIT
  else if (code =? 401)%Z || (code =? 403)%Z then AUTH_ERROR
  else if (500 <=? code)%Z then SERVICE_ERROR
  else VALIDATION_ERROR.

(** A breaker that tripped at time 0. *)
Definition tripped : CircuitBreaker :=
  mkCircuitBreaker 5 60000000 5 (Some 0%Z) Open.

(** An operation that raises [Exception(msg)] each time. *)
Definition failing (msg : string) : nat → op_result unit :=
  λ _, OpRaise (Exn "Exception" msg).

Definition no_jitter_draws : nat → Q := λ _, 0%Q.

(** A call whose operation raises a 503 each time. *)
Definition unavailable : Call unit :=
  mkCall (failing "503 Service Unavailable") no_jitter_draws (mkClock 0 0 0).

(** *** Provider health and sequences of breaker calls *)

(** The state string of a breaker. *)
Definition state_str (s : cb_state) : string :=
  match s with
  | Closed => "closed"
  | Open => "open"
  | HalfOpen => "half-open"
  end.

(** One entry of the dictionary of [get_provider_health]; [last_failure] is
    the time whose [isoformat()] the entry holds. *)
Record ProviderHealth := mkProviderHealth {
  ph_state : string;
  ph_failure_count : Z;
  ph_last_failure : option Z;
  ph_healthy : bool
}.

Definition health_of (circuit_breaker : CircuitBreaker) : ProviderHealth :=
  mkProviderHealth
    (state_str (state circuit_breaker))
    (failure_count circuit_breaker)
    (last_failure_time circuit_breaker)
    (String.eqb (state_str (state circuit_breaker)) "closed").

(** [ErrorHandler.get_provider_health] *)
Definition get_provider_health (self : ErrorHandler)
  : gmap string ProviderHealth :=
  health_of <$> circuit_breakers self.

(** A call of a method of a breaker. *)
Inductive breaker_call :=
  | CanExecute (now : Z)
  | RecordSuccess
  | RecordFailure (now : Z).

(** The breaker after the call, or the exception the call raises. *)
Definition call_breaker (c : breaker_call) (cb : CircuitBreaker)
  : exn + CircuitBreaker :=
  match c with
  | CanExecute now =>
      match can_execute now cb with
      | inl error => inl error
      | inr (_, cb') => inr cb'
      end
  | RecordSuccess => inr (record_success cb)
  | RecordFailure now => inr (record_failure now cb)
  end.

(** Calls in sequence, stopping at the first exception. *)
Fixpoint call_breaker_seq (cs : list breaker_call) (cb : CircuitBreaker)
  : exn + CircuitBreaker :=
  match cs with
  | [] => inr cb
  | c :: rest =>
      match call_breaker c cb with
      | inl error => inl error
      | inr cb' => call_breaker_seq rest cb'
      end
  end.

(** The draws of [random.random()] lie in [[0, 1)]. *)
Definition unit_draws (rnd : nat → Q) : Prop :=
  ∀ n, (0 <= rnd n)%Q ∧ (rnd n < 1)%Q.

(** An attempt that fails with its budget left: the error's kind allows
    more retries than were made. *)
Definition within_budget {A : Type} (operation : nat → op_result A)
    (j : nat) : Prop :=
  ∃ e, operation j = OpRaise e ∧
       (Z.of_nat j < max_retries (retry_strategies (classify_error e None)))%Z.

(** An operation that raises [Exception(msg)] twice and then returns. *)
Definition third_time_lucky (msg : string) : nat → op_result string :=
  λ n, if (n <? 2)%nat then OpRaise (Exn "Exception" msg) else OpOk "done".

(** *** The range of [float] in [get_delay] *)

(** An integer or a power from this value on rounds to infinity as a
    [float]: it is halfway between the largest float, [2^1024 - 2^971], and
    [2^1024]. *)
Definition float_overflow : Z := (2 ^ 1024 - 2 ^ 970)%Z.

(** The [OverflowError] of the conversion of the [int] exponent to a
    [float], and the one of the power itself ([errno] 34, [ERANGE]). *)
Definition OverflowError_int : exn :=
  Exn "OverflowError" "int too large to convert to float".

Definition OverflowError_pow : exn :=
  Exn "OverflowError" "(34, 'Numerical result out of range')".

(** [x ** n] for a [float] [x] and an [int] [n >= 0]: [n] is converted to a
    [float] first, then a power that is out of the range of [float] raises;
    a power that underflows is returned.  The value is the exact power, as
    the [float] is when [x] is [2.0]. *)
Definition float_pow (x : Q) (n : nat) : exn + Q :=
  if (float_overflow <=? Z.of_nat n)%Z then inl OverflowError_int
  else if Qle_bool (inject_Z float_overflow) (Qabs (x ^ Z.of_nat n))
  then inl OverflowError_pow
  else inr (x ^ Z.of_nat n)%Q.

(** [RetryStrategy.get_delay] with the exception that
    [self.exponential_base ** attempt] can raise: the delay returned, or
    the [OverflowError] that leaves the method.  The product with
    [base_delay] raises nothing: a [float] product out of range is [inf],
    which [min] replaces by [max_delay]. *)
Definition get_delay_result (self : RetryStrategy) (attempt : nat) (rnd : Q)
  : exn + Q :=
  match float_pow (exponential_base self) attempt with
  | inl e => inl e
  | inr power =>
      let delay := (base_delay self * power)%Q in
      let delay := Qmin delay (max_delay self) in
      inr (if jitter self then (delay * ((1 # 2) + rnd * (1 # 2)))%Q
           else delay)
  end.



End ErrorHandler.


(** ** The stream events of [backend/models.py] *)

Module Models.

(** [class TokenData(BaseModel)] *)
Module TokenData.
Record t := mk { token : string; position : Z }.
End TokenData.

(** [class FinalData(BaseModel)] *)
Module FinalData.
Record t := mk {
  content : string;
  finish_reason : string;
  message_id : option string
}.
End FinalData.

(** [class MeterData(BaseModel)] *)
Module MeterData.
Record t := mk { tokens_used : Z; cost : Q; latency : Z }.
End MeterData.

(** [class ErrorData(BaseModel)] *)
Module ErrorData.
Record t := mk { message : string; code : option string; retryable : bool }.
End ErrorData.

(** [class StatusData(BaseModel)] *)
Module StatusData.
Record t := mk { status : string; message : option string }.
End StatusData.

(** [Literal["token", "final", "meter", "error", "status"]] *)
Inductive event_type := T_token | T_final | T_meter | T_error | T_status.

Definition type_str (ty : event_type) : string :=
  match ty with
  | T_token => "token"
  | T_final => "final"
  | T_meter => "meter"
  | T_error => "error"
  | T_status => "status"
  end.

(** [Union[TokenData, FinalData, MeterData, ErrorData, StatusData]] *)
Inductive event_data :=
  | D_token (d : TokenData.t)
  | D_final (d : FinalData.t)
  | D_meter (d : MeterData.t)
  | D_error (d : ErrorData.t)
  | D_status (d : StatusData.t).

(** [class StreamEvent(BaseModel)]: the two fields [type] and [data] are
    declared independently of each other. *)
Record StreamEvent := mkStreamEvent {
  type : event_type;
  pane_id : string;
  data : event_data;
  timestamp : Z
}.

(** JSON values; a [datetime] is written as its ISO 8601 string. *)
#[warnings="-register-all"]
Inductive json :=
  | JNull
  | JBool (b : bool)
  | JInt (n : Z)
  | JFloat (q : Q)
  | JStr (s : string)
  | JDatetime (t : Z)
  | JObj (fields : list (string * json)).

Definition json_opt_str (o : option string) : json :=
  match o with
  | Some s => JStr s
  | None => JNull
  end.

(** The field names of an object, in order. *)
Definition keys (j : json) : list string :=
  match j with
  | JObj fields => map fst fields
  | _ => []
  end.

(** [obj[name]] *)
Fixpoint assoc (name : string) (fields : list (string * json)) : option json :=
  match fields with
  | [] => None
  | (k, v) :: rest => if String.eqb k name then Some v else assoc name rest
  end.

Definition field (name : string) (j : json) : option json :=
  match j with
  | JObj fields => assoc name fields
  | _ => None
  end.

(** Serialization of a model: one member per declared field, in declaration
    order, under the field's name. *)
Definition dump_data (d : event_data) : json :=
  match d with
  | D_token d =>
      JObj [("token", JStr (TokenData.token d));
            ("position", JInt (TokenData.position d))]
  | D_final d =>
      JObj [("content", JStr (FinalData.content d));
            ("finish_reason", JStr (FinalData.finish_reason d));
            ("message_id", json_opt_str (FinalData.message_id d))]
  | D_meter d =>
      JObj [("tokens_used", JInt (MeterData.tokens_used d));
            ("cost", JFloat (MeterData.cost d));
            ("latency", JInt (MeterData.latency d))]
  | D_error d =>
      JObj [("message", JStr (ErrorData.message d));
            ("code", json_opt_str (ErrorData.code d));
            ("retryable", JBool (ErrorData.retryable d))]
  | D_status d =>
      JObj [("status", JStr (StatusData.status d));
            ("message", json_opt_str (StatusData.message d))]
  end.

(** [StreamEvent.model_dump_json], as the JSON value it writes. *)
Definition model_dump_json (e : StreamEvent) : json :=
  JObj [("type", JStr (type_str (type e)));
        ("pane_id", JStr (pane_id e));
        ("data", dump_data (data e));
        ("timestamp", JDatetime (timestamp e))].

(** The field names of each payload class, as declared. *)
Definition data_fields (d : event_data) : list string :=
  match d with
  | D_token _ => ["token"; "position"]
  | D_final _ => ["content"; "finish_reason"; "message_id"]
  | D_meter _ => ["tokens_used"; "cost"; "latency"]
  | D_error _ => ["message"; "code"; "retryable"]
  | D_status _ => ["status"; "message"]
  end.

(** A token event. *)
Definition token_event : StreamEvent :=
  mkStreamEvent T_token "pane-1" (D_token (TokenData.mk "Hel" 0)) 0.

(** The field names of the [data] member of a serialized event. *)
Definition data_keys (e : StreamEvent) : list string :=
  match field "data" (model_dump_json e) with
  | Some d => keys d
  | None => []
  end.

End Models.

(** ** [backend/websocket_manager.py] *)

Module WebSocketManager.

(** A [fastapi.WebSocket] object, known by its identity. *)
Definition WebSocket := N.

(** What [await websocket.send_text(...)] does. *)
Inductive send_result :=
  | SendOk
  | SendDisconnect            (* raises WebSocketDisconnect *)
  | SendError (error : exn).  (* raises another Exception *)

(** [class ConnectionInfo] *)
Record ConnectionInfo := mkConnectionInfo {
  websocket : WebSocket;
  session_id : string;
  connected_at : Z;
  last_ping : Z;
  failed_sends : Z;
  is_alive : bool
}.

Definition set_failed_sends (n : Z) (c : ConnectionInfo) : ConnectionInfo :=
  mkConnectionInfo (websocket c) (session_id c) (connected_at c) (last_ping c)
                   n (is_alive c).

Definition set_is_alive (b : bool) (c : ConnectionInfo) : ConnectionInfo :=
  mkConnectionInfo (websocket c) (session_id c) (connected_at c) (last_ping c)
                   (failed_sends c) b.

(** [class EnhancedConnectionManager]: the connection table, the session
    index, and the flag of the background tasks. *)
Record EnhancedConnectionManager := mkManager {
  connections : gmap string ConnectionInfo;
  session_connections : gmap string (gset string);
  background_tasks_started : bool
}.

(** The settings of [__init__], never written afterwards. *)
Definition heartbeat_interval : Z := 30.
Definition max_failed_sends : Z := 3.
Definition cleanup_interval : Z := 300.

(** [EnhancedConnectionManager()] *)
Definition EnhancedConnectionManager_new : EnhancedConnectionManager :=
  mkManager ∅ ∅ false.

(** [EnhancedConnectionManager.connect].  [accept] is what
    [await websocket.accept()] does ([Some e]: it raises [e]),
    [connection_id] the string of the [uuid4()] drawn, [now1] and [now2] the
    two readings of [datetime.now()] in [ConnectionInfo.__init__]. *)
Definition connect (accept : option exn) (connection_id : string)
  (now1 now2 : Z) (ws : WebSocket) (sid : string)
  (self : EnhancedConnectionManager)
  : (exn + string) * EnhancedConnectionManager :=
  match accept with
  | Some e => (inl e, self)
  | None =>
      let connection_info := mkConnectionInfo ws sid now1 now2 0 true in
      let connections' := <[connection_id := connection_info]> (connections self) in
      let index :=
        match session_connections self !! sid with
        | Some _ => session_connections self
        | None => <[sid := ∅]> (session_connections self)
        end in
      let index' :=
        <[sid := default ∅ (index !! sid) ∪ {[connection_id]}]> index in
      (inr connection_id, mkManager connections' index' true)
  end.

(** [EnhancedConnectionManager.disconnect]; [reason] is only logged. *)
Definition disconnect (connection_id : string) (reason : string)
  (self : EnhancedConnectionManager) : EnhancedConnectionManager :=
  match connections self !! connection_id with
  | None => self
  | Some connection_info =>
      let sid := session_id connection_info in
      let connections' := delete connection_id (connections self) in
      let index' :=
        match session_connections self !! sid with
        | Some ids =>
            let ids' := ids ∖ {[connection_id]} in
            if decide (ids' = ∅)
            then delete sid (session_connections self)
            else <[sid := ids']> (session_connections self)
        | None => session_connections self
        end in
      mkManager connections' index' (background_tasks_started self)
  end.

(** The locals of the first loop of [send_event]. *)
Record send_state := mkSend {
  ss_connections : gmap string ConnectionInfo;
  successful_sends : Z;
  failed_connections : list string
}.

Section SendEvent.
(** [send_text ws payload] is what sending [payload] on [ws] does. *)
Variable send_text : WebSocket → Models.json → send_result.
Variable event : Models.StreamEvent.

(** The body of [for connection_id in connection_ids]. *)
Definition send_one (st : send_state) (connection_id : string) : send_state :=
  match ss_connections st !! connection_id with
  | None =>
      mkSend (ss_connections st) (successful_sends st)
             (failed_connections st ++ [connection_id])
  | Some connection_info =>
      let event_data := Models.model_dump_json event in
      match send_text (websocket connection_info) event_data with
      | SendOk =>
          mkSend (<[connection_id := set_failed_sends 0 connection_info]>
                    (ss_connections st))
                 (successful_sends st + 1)
                 (failed_connections st)
      | SendDisconnect =>
          mkSend (ss_connections st) (successful_sends st)
                 (failed_connections st ++ [connection_id])
      | SendError _ =>
          let connection_info :=
            set_failed_sends (failed_sends connection_info + 1) connection_info in
          if (max_failed_sends <=? failed_sends connection_info)%Z
          then
            mkSend (<[connection_id := set_is_alive false connection_info]>
                      (ss_connections st))
                   (successful_sends st)
                   (failed_connections st ++ [connection_id])
          else
            mkSend (<[connection_id := connection_info]> (ss_connections st))
                   (successful_sends st)
                   (failed_connections st)
      end
  end.

(** [EnhancedConnectionManager.send_event]: the returned boolean and the
    manager afterwards.  [list(set)] gives the ids in an order that is not
    specified; what is proved below uses only that each id comes once. *)
Definition send_event (sid : string) (self : EnhancedConnectionManager)
  : bool * EnhancedConnectionManager :=
  match session_connections self !! sid with
  | None => (false, self)
  | Some ids =>
      let connection_ids := elements ids in
      let st := foldl send_one (mkSend (connections self) 0 []) connection_ids in
      let self' :=
        mkManager (ss_connections st) (session_connections self)
                  (background_tasks_started self) in
      (* Clean up failed connections *)
      let self'' :=
        foldl (λ m connection_id, disconnect connection_id "send_failure" m)
              self' (failed_connections st) in
      ((0 <? successful_sends st)%Z, self'')
  end.
End SendEvent.

(** *** Operations and invariants of the manager *)

(** [connection_id] is in the index entry of session [sid]. *)
Definition indexed (self : EnhancedConnectionManager)
  (sid connection_id : string) : Prop :=
  ∃ ids, session_connections self !! sid = Some ids ∧ connection_id ∈ ids.

(** Every id in an index entry is in the connection table. *)
Definition index_in_table (self : EnhancedConnectionManager) : Prop :=
  ∀ sid connection_id,
    indexed self sid connection_id →
    is_Some (connections self !! connection_id).

(** Every id in the table is in the index entry of its own session and in
    no other entry. *)
Definition table_in_own_index (self : EnhancedConnectionManager) : Prop :=
  ∀ connection_id info,
    connections self !! connection_id = Some info →
    ∀ sid, indexed self sid connection_id ↔ sid = session_id info.

Definition consistent (self : EnhancedConnectionManager) : Prop :=
  index_in_table self ∧ table_in_own_index self.

(** No index entry is an empty set. *)
Definition index_nonempty (self : EnhancedConnectionManager) : Prop :=
  ∀ sid ids, session_connections self !! sid = Some ids → ids ≠ ∅.

(** The three operations, with what they meet in the world. *)
Inductive manager_op :=
  | Connect (accept : option exn) (connection_id : string) (now1 now2 : Z)
            (ws : WebSocket) (sid : string)
  | Disconnect (connection_id reason : string)
  | SendEvent (send_text : WebSocket → Models.json → send_result)
              (event : Models.StreamEvent) (sid : string).

(** The manager after an operation. *)
Definition run (o : manager_op) (self : EnhancedConnectionManager)
  : EnhancedConnectionManager :=
  match o with
  | Connect accept connection_id now1 now2 ws sid =>
      (connect accept connection_id now1 now2 ws sid self).2
  | Disconnect connection_id reason => disconnect connection_id reason self
  | SendEvent send_text event sid => (send_event send_text event sid self).2
  end.

(** The [uuid4()] drawn by [connect] is not the id of a connection of the
    table. *)
Definition fresh_id (o : manager_op) (self : EnhancedConnectionManager)
  : Prop :=
  match o with
  | Connect _ connection_id _ _ _ _ => connections self !! connection_id = None
  | _ => True
  end.

(** What sending [event] to the connection of [info] does. *)
Definition send_result_of
  (send_text : WebSocket → Models.json → send_result)
  (event : Models.StreamEvent) (info : ConnectionInfo) : send_result :=
  send_text (websocket info) (Models.model_dump_json event).

(** What one send of [send_event] does to the record of its connection. *)
Definition after_send (r : send_result) (info : ConnectionInfo)
  : ConnectionInfo :=
  match r with
  | SendOk => set_failed_sends 0 info
  | SendDisconnect => info
  | SendError _ =>
      let info' := set_failed_sends (failed_sends info + 1) info in
      if (max_failed_sends <=? failed_sends info')%Z
      then set_is_alive false info' else info'
  end.

(** Whether that send puts the connection on [failed_connections]. *)
Definition dropped (r : send_result) (info : ConnectionInfo) : bool :=
  match r with
  | SendOk => false
  | SendDisconnect => true
  | SendError _ => (max_failed_sends <=? failed_sends info + 1)%Z
  end.

(** The locals of [send_event] after its first loop, before the clean-up. *)
Definition after_sends
  (send_text : WebSocket → Models.json → send_result)
  (event : Models.StreamEvent) (ids : gset string)
  (self : EnhancedConnectionManager) : send_state :=
  foldl (send_one send_text event) (mkSend (connections self) 0 [])
        (elements ids).

(** A connection leaves the table in a broadcast only if its counter of
    failed sends reaches [max_failed_sends] there. *)
Definition removed_only_at_threshold
  (send_text : WebSocket → Models.json → send_result)
  (event : Models.StreamEvent) (sid : string)
  (self : EnhancedConnectionManager) : Prop :=
  ∀ connection_id info,
    connections self !! connection_id = Some info →
    connections (send_event send_text event sid self).2 !! connection_id
      = None →
    (max_failed_sends <= failed_sends info + 1)%Z.

(** A manager with one connection ["c1"] of session ["S"], and a transport
    that reports the peer gone. *)
Definition one_connection : EnhancedConnectionManager :=
  (connect None "c1" 0 0 1%N "S" EnhancedConnectionManager_new).2.

Definition peer_gone : WebSocket → Models.json → send_result :=
  λ _ _, SendDisconnect.

Definition send_fails : WebSocket → Models.json → send_result :=
  λ _ _, SendError (Exn "RuntimeError" "send failed").

(** *** The other operations of the manager *)

Definition set_last_ping (t : Z) (c : ConnectionInfo) : ConnectionInfo :=
  mkConnectionInfo (websocket c) (session_id c) (connected_at c) t
                   (failed_sends c) (is_alive c).

Definition with_connections (table : gmap string ConnectionInfo)
  (self : EnhancedConnectionManager) : EnhancedConnectionManager :=
  mkManager table (session_connections self) (background_tasks_started self).

(** [EnhancedConnectionManager.send_to_connection]; [data] is the value that
    [json.dumps] writes.  The [except Exception] clause catches a
    [WebSocketDisconnect] like any other exception. *)
Definition send_to_connection
  (send_text : WebSocket → Models.json → send_result)
  (connection_id : string) (data : Models.json)
  (self : EnhancedConnectionManager) : bool * EnhancedConnectionManager :=
  match connections self !! connection_id with
  | None => (false, self)
  | Some connection_info =>
      match send_text (websocket connection_info) data with
      | SendOk =>
          (true,
           with_connections
             (<[connection_id := set_failed_sends 0 connection_info]>
                (connections self)) self)
      | _ =>
          let connection_info :=
            set_failed_sends (failed_sends connection_info + 1)
                             connection_info in
          let self :=
            with_connections
              (<[connection_id := connection_info]> (connections self)) self in
          if (max_failed_sends <=? failed_sends connection_info)%Z
          then (false, disconnect connection_id "send_failure" self)
          else (false, self)
      end
  end.

(** The body of the loop of [broadcast_to_all], on the count of successful
    sends and the list of failed connections. *)
Definition broadcast_one
  (send_text : WebSocket → Models.json → send_result) (data : Models.json)
  (acc : Z * list string) (item : string * ConnectionInfo)
  : Z * list string :=
  match send_text (websocket item.2) data with
  | SendOk => ((acc.1 + 1)%Z, acc.2)
  | _ => (acc.1, (acc.2 ++ [item.1])%list)
  end.

(** [EnhancedConnectionManager.broadcast_to_all]: the number of successful
    sends and the manager afterwards. *)
Definition broadcast_to_all
  (send_text : WebSocket → Models.json → send_result) (data : Models.json)
  (self : EnhancedConnectionManager) : Z * EnhancedConnectionManager :=
  let acc :=
    foldl (broadcast_one send_text data) (0%Z, [])
          (map_to_list (connections self)) in
  (* Clean up failed connections *)
  (acc.1,
   foldl (λ m connection_id, disconnect connection_id "broadcast_failure" m)
         self acc.2).

(** The [ping_data] of [ping_connection]. *)
Definition ping_data (now : Z) : Models.json :=
  Models.JObj [("type", Models.JStr "ping");
               ("timestamp", Models.JDatetime now)].

(** [EnhancedConnectionManager.ping_connection]; [now_sent] and [now_ping]
    are its two readings of [datetime.now()]. *)
Definition ping_connection
  (send_text : WebSocket → Models.json → send_result)
  (now_sent now_ping : Z) (connection_id : string)
  (self : EnhancedConnectionManager) : bool * EnhancedConnectionManager :=
  let '(success, self) :=
    send_to_connection send_text connection_id (ping_data now_sent) self in
  if success then
    match connections self !! connection_id with
    | Some connection_info =>
        (success,
         with_connections
           (<[connection_id := set_last_ping now_ping connection_info]>
              (connections self)) self)
    | None => (success, self)
    end
  else (success, self).

(** [EnhancedConnectionManager.get_session_connections] *)
Definition get_session_connections (sid : string)
  (self : EnhancedConnectionManager) : nat :=
  size (default (∅ : gset string) (session_connections self !! sid)).

(** [conn.is_alive and conn.failed_sends == 0] *)
Definition healthy (c : ConnectionInfo) : bool :=
  is_alive c && (failed_sends c =? 0)%Z.

(** [timedelta.total_seconds()] of a difference of two readings. *)
Definition total_seconds (microseconds : Z) : Q :=
  (inject_Z microseconds / 1000000)%Q.

(** [EnhancedConnectionManager._calculate_average_connection_age] *)
Definition calculate_average_connection_age (now : Z)
  (self : EnhancedConnectionManager) : Q :=
  if decide (connections self = ∅) then 0%Q
  else
    let total_age :=
      foldl (λ acc item, (acc + total_seconds (now - connected_at item.2))%Q)
            0%Q (map_to_list (connections self)) in
    (total_age / inject_Z (Z.of_nat (size (connections self))))%Q.

(** The dictionary that [get_connection_stats] returns. *)
Record ConnectionStats := mkStats {
  total_connections : nat;
  healthy_connections : nat;
  active_sessions : nat;
  unhealthy_connections : Z;
  average_connection_age : Q
}.

(** [EnhancedConnectionManager.get_connection_stats] *)
Definition get_connection_stats (now : Z) (self : EnhancedConnectionManager)
  : ConnectionStats :=
  let total_connections := size (connections self) in
  let active_sessions := size (session_connections self) in
  let healthy_connections :=
    length (filter (λ item, healthy item.2 = true)
                   (map_to_list (connections self))) in
  mkStats total_connections healthy_connections active_sessions
          (Z.of_nat total_connections - Z.of_nat healthy_connections)
          (calculate_average_connection_age now self).

(** One pass of the loop of [_cleanup_stale_connections], after its sleep:
    the sessions with an empty set are listed, then deleted. *)
Definition cleanup_pass (self : EnhancedConnectionManager)
  : EnhancedConnectionManager :=
  let empty_sessions :=
    (filter (λ item, item.2 = (∅ : gset string))
            (map_to_list (session_connections self))).*1 in
  mkManager (connections self)
            (foldl (λ index sid, delete sid index)
                   (session_connections self) empty_sessions)
            (background_tasks_started self).

(** The locals of one pass of [_heartbeat_monitor]. *)
Record heartbeat_state := mkHeartbeat {
  hb_manager : EnhancedConnectionManager;
  stale_connections : list string
}.

Section Heartbeat.
Variable send_text : WebSocket → Models.json → send_result.
(** [now] is read once per pass; [now_sent c] and [now_ping c] are the two
    readings of the ping of connection [c]. *)
Variable now : Z.
Variable now_sent now_ping : string → Z.

(** The body of [for connection_id, connection_info in
    self.connections.items()]. *)
Definition heartbeat_body (st : heartbeat_state) (connection_id : string)
  : heartbeat_state :=
  match connections (hb_manager st) !! connection_id with
  | None => st
  | Some connection_info =>
      let time_since_ping := (now - last_ping connection_info)%Z in
      if (heartbeat_interval * 2 * 1000000 <? time_since_ping)%Z
      then
        let '(success, self) :=
          ping_connection send_text (now_sent connection_id)
                          (now_ping connection_id) connection_id
                          (hb_manager st) in
        mkHeartbeat self
          (if success then stale_connections st
           else (stale_connections st ++ [connection_id])%list)
      else st
  end.

(** The loop over the items of the dictionary.  Each step of the iterator,
    the last one too, first compares the size of the dictionary with its size
    at the start and raises [RuntimeError] when a connection was deleted in
    between; the boolean tells whether the loop ended without. *)
Fixpoint heartbeat_loop (size0 : nat) (connection_ids : list string)
  (st : heartbeat_state) : bool * heartbeat_state :=
  if decide (size (connections (hb_manager st)) = size0) then
    match connection_ids with
    | [] => (true, st)
    | connection_id :: rest =>
        heartbeat_loop size0 rest (heartbeat_body st connection_id)
    end
  else (false, st).

(** One pass of the loop of [_heartbeat_monitor], after its sleep.  The
    [RuntimeError] is caught and logged by the pass, which then skips the
    clean-up of the stale connections. *)
Definition heartbeat_pass (self : EnhancedConnectionManager)
  : EnhancedConnectionManager :=
  let connection_ids := (map_to_list (connections self)).*1 in
  match heartbeat_loop (size (connections self)) connection_ids
                       (mkHeartbeat self []) with
  | (true, st) =>
      (* Clean up stale connections *)
      foldl (λ m connection_id,
               disconnect connection_id "heartbeat_timeout" m)
            (hb_manager st) (stale_connections st)
  | (false, st) => hb_manager st
  end.
End Heartbeat.

(** The further operations, with what they meet in the world. *)
Inductive background_op :=
  | SendToConnection (send_text : WebSocket → Models.json → send_result)
                     (connection_id : string) (data : Models.json)
  | BroadcastToAll (send_text : WebSocket → Models.json → send_result)
                   (data : Models.json)
  | PingConnection (send_text : WebSocket → Models.json → send_result)
                   (now_sent now_ping : Z) (connection_id : string)
  | CleanupPass.

Definition run_background (o : background_op)
  (self : EnhancedConnectionManager) : EnhancedConnectionManager :=
  match o with
  | SendToConnection send_text connection_id data =>
      (send_to_connection send_text connection_id data self).2
  | BroadcastToAll send_text data => (broadcast_to_all send_text data self).2
  | PingConnection send_text now_sent now_ping connection_id =>
      (ping_connection send_text now_sent now_ping connection_id self).2
  | CleanupPass => cleanup_pass self
  end.

(** The send of [data] to the connection of a table item succeeds. *)
Definition sent_ok (send_text : WebSocket → Models.json → send_result)
  (data : Models.json) (item : string * ConnectionInfo) : Prop :=
  send_text (websocket item.2) data = SendOk.

#[global] Instance sent_ok_dec send_text data item :
  Decision (sent_ok send_text data item).
Proof.
  unfold sent_ok. destruct (send_text _ _); [left|right|right]; done.
Defined.

(** The number of connections of the table that belong to session [sid]. *)
Definition connections_of_session (sid : string)
  (self : EnhancedConnectionManager) : nat :=
  size (filter (λ item, session_id item.2 = sid) (connections self)).

(** A manager with two connections of session ["S"] and one of ["T"]. *)
Definition three_connections : EnhancedConnectionManager :=
  (connect None "c3" 0 0 3%N "T"
     (connect None "c2" 0 0 2%N "S" one_connection).2).2.

(** A transport on which only the socket [1] fails. *)
Definition first_fails : WebSocket → Models.json → send_result :=
  λ ws _, if (ws =? 1)%N then SendError (Exn "RuntimeError" "send failed")
          else SendOk.

Definition all_sent : WebSocket → Models.json → send_result :=
  λ _ _, SendOk.

End WebSocketManager.

(** ** The events that [backend/error_handler.py] creates *)

Module ErrorEvents.
Import ErrorHandler.

(** [ErrorHandler.create_error_event]; [now] is the [timestamp] that the
    event takes by default, [context] is not read. *)
Definition create_error_event (now : Z) (error : exn) (pane_id : string)
  (status_code : option Z) : Models.StreamEvent :=
  let error_type := classify_error error status_code in
  let retry_strategy := retry_strategies error_type in
  Models.mkStreamEvent Models.T_error pane_id
    (Models.D_error
       (Models.ErrorData.mk (exn_str error) (Some (value error_type))
                            (0 <? max_retries retry_strategy)%Z))
    now.

(** [ErrorHandler.create_status_event] *)
Definition create_status_event (now : Z) (pane_id status : string)
  (message : option string) : Models.StreamEvent :=
  Models.mkStreamEvent Models.T_status pane_id
    (Models.D_status (Models.StatusData.mk status message)) now.

End ErrorEvents.

(** ** [backend/adapters/base.py] *)

Module LLMAdapter.

(** What iterating [self.stream(...)] to its end gives: the events yielded,
    in order, and the exception that ends the iteration, if one does. *)
Record stream_run := mkStreamRun {
  yielded : list Models.StreamEvent;
  raised : option exn
}.

(** [LLMAdapter.stream_with_error_handling], as the list of the events it
    yields when it is iterated to its end; [now] is the time of the error
    event. *)
Definition stream_with_error_handling (now : Z) (pane_id : string)
  (stream : stream_run) : list Models.StreamEvent :=
  match raised stream with
  | None => yielded stream
  | Some e =>
      (yielded stream ++ [ErrorEvents.create_error_event now e pane_id None])%list
  end.

End LLMAdapter.

(** * Properties *)

(** ** Error classification, backoff, circuit breaker and executor *)

Module ErrorHandlerSpec.
Import ErrorHandler.

(** *** Classification *)

Lemma classify_error_of_status (error : exn) (code : Z) :
  (400 <= code)%Z → classify_error error (Some code) = kind_of_status code.
Proof.
  intros Hcode. unfold classify_error, kind_of_status.
  destruct (Z.eqb_spec code 0) as [->|_]; [lia|].
  destruct (code =? 429)%Z; [done|].
  destruct ((code =? 401)%Z || (code =? 403)%Z); [done|].
  destruct (500 <=? code)%Z; [done|].
  destruct (Z.leb_spec 400 code); [done|lia].
Qed.

(** C6: with a status code of 400 or more, [classify_error] returns the kind
    of the status code whatever the error and its message are: 429 gives
    rate_limit, 401 and 403 give auth_error, 500 and above give
    service_error, every other code from 400 gives validation_error. *)
Theorem classify_error_status_priority (error : exn) (code : Z) :
  (400 <= code)%Z →
  (∀ error' : exn,
     classify_error error (Some code) = classify_error error' (Some code)) ∧
  (code = 429%Z → classify_error error (Some code) = RATE_LIMIT) ∧
  (code = 401%Z ∨ code = 403%Z →
     classify_error error (Some code) = AUTH_ERROR) ∧
  ((500 <= code)%Z → classify_error error (Some code) = SERVICE_ERROR) ∧
  ((code < 500)%Z → code ≠ 429%Z → code ≠ 401%Z → code ≠ 403%Z →
     classify_error error (Some code) = VALIDATION_ERROR).
Proof.
  intros Hcode. split.
  { intros error'. by rewrite !classify_error_of_status. }
  rewrite classify_error_of_status by done. unfold kind_of_status.
  repeat split.
  - by intros ->.
  - by intros [-> | ->].
  - intros H500.
    destruct (Z.eqb_spec code 429) as [->|_]; [lia|].
    destruct (Z.eqb_spec code 401) as [->|_]; [lia|].
    destruct (Z.eqb_spec code 403) as [->|_]; [lia|].
    simpl. destruct (Z.leb_spec 500 code); [done|lia].
  - intros Hlt H429 H401 H403.
    destruct (Z.eqb_spec code 429); [done|].
    destruct (Z.eqb_spec code 401); [done|].
    destruct (Z.eqb_spec code 403); [done|].
    simpl. destruct (Z.leb_spec 500 code); [lia|done].
Qed.

Lemma classify_error_status_priority_witness :
  classify_error (Exn "Exception" "request timed out") (Some 503%Z)
  = SERVICE_ERROR.
Proof.
  apply (classify_error_status_priority
           (Exn "Exception" "request timed out") 503); lia.
Defined.

(** Without a status code the classifier reads the message only, and the
    kinds it can return are timeout, rate_limit, auth_error, network_error
    and unknown_error. *)
Lemma classify_error_by_message (error : exn) :
  classify_error error None ≠ SERVICE_ERROR ∧
  classify_error error None ≠ VALIDATION_ERROR.
Proof.
  unfold classify_error.
  repeat match goal with
         | |- context [if ?b then _ else _] => destruct b
         end; done.
Qed.

(** *** Backoff *)

Lemma backoff_nonneg (p : RetryStrategy) (n : nat) :
  nonneg_policy p → (0 <= backoff p n)%Q.
Proof.
  intros (Hb & He & Hm). unfold backoff.
  apply Q.min_glb; [|done].
  apply Qmult_le_0_compat; [done|]. by apply Qpower_0_le.
Qed.

Lemma retry_strategies_nonneg (K : ErrorType) :
  nonneg_policy (retry_strategies K).
Proof. by destruct K. Qed.

Lemma jitter_interval (d r : Q) :
  (0 <= d → 0 <= r → r < 1 →
   (1 # 2) * d <= d * ((1 # 2) + r * (1 # 2)) ∧
   d * ((1 # 2) + r * (1 # 2)) <= d)%Q.
Proof. intros Hd Hr0 Hr1. split; nra. Qed.

(** Up to attempt 1023 the power of [2.0] is in the range of [float]. *)
Lemma float_pow_two (n : nat) :
  (n <= 1023)%nat → float_pow 2 n = inr (2 ^ Z.of_nat n)%Q.
Proof.
  intros Hn. unfold float_pow.
  assert (Hbig : (1023 < float_overflow)%Z) by (by vm_compute).
  destruct (Z.leb_spec float_overflow (Z.of_nat n)) as [Hge|_]; [lia|].
  destruct (Qle_bool _ _) eqn:Hq; [exfalso|done].
  apply Qle_bool_iff in Hq.
  assert (Hpos : (0 <= 2 ^ Z.of_nat n)%Q) by (by apply Qpower_0_le).
  rewrite (Qabs_pos _ Hpos) in Hq.
  assert (Hle : (2 ^ Z.of_nat n <= 2 ^ 1023)%Q).
  { apply Qpower_le_compat_l; [lia|done]. }
  assert (Hlt : (2 ^ 1023 < inject_Z float_overflow)%Q) by (by vm_compute).
  apply (Qlt_irrefl (2 ^ 1023)).
  eapply Qlt_le_trans; [exact Hlt|]. by eapply Qle_trans.
Qed.


(** Where [get_delay_result] returns, the delay is the value [get_delay]. *)
Lemma get_delay_result_value (p : RetryStrategy) (n : nat) (r delay : Q) :
  get_delay_result p n r = inr delay → delay = get_delay p n r.
Proof.
  unfold get_delay_result, float_pow, get_delay.
  repeat match goal with
         | |- context [if ?b then _ else _] =>
             lazymatch b with jitter _ => fail | _ => destruct b end
         end; congruence.
Qed.

(** The executor asks for the delays of attempts 0 to 2, which each policy
    of the table returns. *)
Lemma get_delay_result_table (K : ErrorType) (n : nat) (r : Q) :
  (n <= 1023)%nat →
  get_delay_result (retry_strategies K) n r
  = inr (get_delay (retry_strategies K) n r).
Proof.
  intros Hn. unfold get_delay_result.
  replace (exponential_base (retry_strategies K)) with 2%Q by (by destruct K).
  rewrite float_pow_two by done. unfold get_delay.
  by replace (exponential_base (retry_strategies K)) with 2%Q
    by (by destruct K).
Qed.




(** *** Circuit breaker *)

(** C2, as the code has it: a breaker in state open whose last failure is
    more than [recovery_timeout] in the past lets the next call through and
    goes to half-open; as long as it stays half-open (no success or failure
    recorded) every further [can_execute] returns true as well and leaves
    it half-open. *)
Theorem can_execute_after_recovery (cb : CircuitBreaker) (now t : Z) :
  state cb = Open →
  last_failure_time cb = Some t →
  (recovery_timeout cb < now - t)%Z →
  can_execute now cb = inr (true, set_state HalfOpen cb) ∧
  state (set_state HalfOpen cb) = HalfOpen ∧
  ∀ now', can_execute now' (set_state HalfOpen cb)
          = inr (true, set_state HalfOpen cb).
Proof.
  intros Hst Hlast Hlt. unfold can_execute. rewrite Hst, Hlast.
  destruct (Z.ltb_spec (recovery_timeout cb) (now - t)); [|lia].
  done.
Qed.

Lemma can_execute_after_recovery_witness :
  can_execute 60000001 tripped = inr (true, set_state HalfOpen tripped) ∧
  state (set_state HalfOpen tripped) = HalfOpen ∧
  ∀ now', can_execute now' (set_state HalfOpen tripped)
          = inr (true, set_state HalfOpen tripped).
Proof.
  apply (can_execute_after_recovery tripped 60000001 0); [done..|].
  simpl. lia.
Defined.

(** C2 as stated fails: the breaker that tripped at time 0 lets a call
    through at 60.000001 s and another one right after it. *)
Lemma can_execute_half_open_not_once : ¬ one_probe_only tripped 60000001.
Proof.
  intros (cb' & Hfirst & _ & Hnone).
  injection Hfirst as <-.
  by apply (Hnone 60000002%Z (set_state HalfOpen tripped)).
Qed.

(** *** Executor *)

Lemma attempt_range_eq : attempt_range = [0; 1; 2].
Proof. reflexivity. Qed.

Section ExecutorFacts.
Context {A : Type}.
Variable operation : nat → op_result A.
Variable rnd : nat → Q.
Variable clock : Clock.

Local Arguments classify_error : simpl never.
Local Arguments get_delay : simpl never.

(** A call that the breaker lets through is the loop and what follows it. *)
Lemma execute_permitted (h h' : ErrorHandler) (provider : string)
    (cb cb' : CircuitBreaker) :
  get_circuit_breaker h provider = (cb, h') →
  can_execute (t_check clock) cb = inr (true, cb') →
  execute_with_retry operation rnd clock h provider =
  match retry_loop operation rnd clock attempt_range (mkLoop cb' None 0 []) with
  | (LoopReturn result, st) =>
      mkRun (Return result) (ls_calls st) (ls_sleeps st)
            (store_breaker provider (ls_breaker st) h')
  | (_, st) =>
      mkRun (Raise (default TypeError_raise (ls_last_error st)))
            (ls_calls st) (ls_sleeps st)
            (store_breaker provider
               (record_failure (t_final clock) (ls_breaker st)) h')
  end.
Proof.
  intros Hget Hcan. unfold execute_with_retry. by rewrite Hget, Hcan.
Qed.

(** A call that the breaker blocks. *)
Lemma execute_blocked (h h' : ErrorHandler) (provider : string)
    (cb cb' : CircuitBreaker) :
  get_circuit_breaker h provider = (cb, h') →
  can_execute (t_check clock) cb = inr (false, cb') →
  execute_with_retry operation rnd clock h provider =
  mkRun (Raise (circuit_open_error provider)) 0 []
        (store_breaker provider cb' h').
Proof.
  intros Hget Hcan. unfold execute_with_retry. by rewrite Hget, Hcan.
Qed.

(** C1, as the code has it: when every attempt fails with an error of the
    same kind [K], the operation is awaited [max_retries K + 1] times only
    if that is at most 3, the length of the loop's range
    ([max_retries] of unknown_error plus one), and 3 times otherwise. *)
Theorem execute_with_retry_attempts (h : ErrorHandler) (provider : string)
    (K : ErrorType) :
  permitted h provider clock →
  always_fails_as K operation →
  run_calls (execute_with_retry operation rnd clock h provider)
  = Z.to_nat (Z.min (max_retries (retry_strategies K) + 1) 3).
Proof.
  intros [cb' Hcan] Hfail.
  destruct (get_circuit_breaker h provider) as [cb h'] eqn:Hget.
  rewrite (execute_permitted h h' provider cb cb' Hget Hcan).
  rewrite attempt_range_eq.
  destruct (Hfail 0) as (e0 & H0 & HK0).
  destruct (Hfail 1) as (e1 & H1 & HK1).
  destruct (Hfail 2) as (e2 & H2 & HK2).
  cbn [retry_loop ls_calls].
  rewrite H0, HK0.
  destruct K; cbn; try done;
    rewrite H1, HK1; cbn; by rewrite H2, HK2.
Qed.

(** C7: when the breaker lets the call through and the first await fails
    with an error whose kind has [max_retries = 0], the operation is
    awaited once, nothing is slept, and that error is raised; the kinds with
    [max_retries = 0] are auth_error and validation_error. *)
Theorem execute_with_retry_no_retry (h : ErrorHandler) (provider : string)
    (error : exn) :
  permitted h provider clock →
  operation 0 = OpRaise error →
  max_retries (retry_strategies (classify_error error None)) = 0%Z →
  run_calls (execute_with_retry operation rnd clock h provider) = 1 ∧
  run_sleeps (execute_with_retry operation rnd clock h provider) = [] ∧
  run_outcome (execute_with_retry operation rnd clock h provider)
  = Raise error ∧
  (∀ K, max_retries (retry_strategies K) = 0%Z ↔
        K = AUTH_ERROR ∨ K = VALIDATION_ERROR).
Proof.
  intros [cb' Hcan] Hop Hmax.
  destruct (get_circuit_breaker h provider) as [cb h'] eqn:Hget.
  rewrite (execute_permitted h h' provider cb cb' Hget Hcan).
  rewrite attempt_range_eq.
  cbn [retry_loop ls_calls]. rewrite Hop, Hmax. cbn.
  repeat split; try done.
  - by destruct K; intros ?; auto.
  - by intros [-> | ->].
Qed.

End ExecutorFacts.

Lemma execute_with_retry_attempts_witness :
  (max_retries (retry_strategies RATE_LIMIT) + 1 = 6)%Z ∧
  run_calls (execute_with_retry (failing "Rate limit exceeded")
               no_jitter_draws (mkClock 0 0 0) ErrorHandler_new "P") = 3.
Proof.
  split; [reflexivity|].
  apply (execute_with_retry_attempts (failing "Rate limit exceeded")
           no_jitter_draws (mkClock 0 0 0) ErrorHandler_new "P" RATE_LIMIT).
  - by eexists.
  - intros n. by eexists.
Defined.

Lemma execute_with_retry_no_retry_witness :
  run_calls (execute_with_retry (failing "401 Unauthorized")
               no_jitter_draws (mkClock 0 0 0) ErrorHandler_new "P") = 1 ∧
  run_sleeps (execute_with_retry (failing "401 Unauthorized")
               no_jitter_draws (mkClock 0 0 0) ErrorHandler_new "P") = [] ∧
  run_outcome (execute_with_retry (failing "401 Unauthorized")
               no_jitter_draws (mkClock 0 0 0) ErrorHandler_new "P")
  = Raise (Exn "Exception" "401 Unauthorized").
Proof.
  destruct (execute_with_retry_no_retry (failing "401 Unauthorized")
              no_jitter_draws (mkClock 0 0 0) ErrorHandler_new "P"
              (Exn "Exception" "401 Unauthorized"))
    as (H1 & H2 & H3 & _).
  - by eexists.
  - reflexivity.
  - reflexivity.
  - done.
Defined.

(** *** Failing calls and the breaker *)

Lemma breaker_wf_new : breaker_wf CircuitBreaker_new.
Proof. repeat split; simpl; try done; lia. Qed.

Lemma get_circuit_breaker_wf (h : ErrorHandler) (provider : string) :
  handler_wf h provider → breaker_wf (get_circuit_breaker h provider).1.
Proof.
  intros Hwf. unfold get_circuit_breaker.
  destruct (circuit_breakers h !! provider) as [cb|] eqn:Hcb; simpl.
  - by apply Hwf.
  - apply breaker_wf_new.
Qed.

Lemma get_circuit_breaker_lookup (h : ErrorHandler) (provider : string) :
  circuit_breakers (get_circuit_breaker h provider).2 !! provider
  = Some (get_circuit_breaker h provider).1.
Proof.
  unfold get_circuit_breaker.
  destruct (circuit_breakers h !! provider) as [cb|] eqn:Hcb; simpl.
  - done.
  - by rewrite lookup_insert_eq.
Qed.

Lemma get_circuit_breaker_stored (h : ErrorHandler) (provider : string)
    (cb : CircuitBreaker) :
  circuit_breakers h !! provider = Some cb →
  get_circuit_breaker h provider = (cb, h).
Proof. intros H. unfold get_circuit_breaker. by rewrite H. Qed.

(** What a recorded failure does to a well-formed breaker. *)
Lemma record_failure_wf (now : Z) (cb : CircuitBreaker) :
  breaker_wf cb →
  breaker_wf (record_failure now cb) ∧
  state (record_failure now cb) ≠ HalfOpen ∧
  (failure_count (record_failure now cb) = failure_count cb + 1)%Z ∧
  (state (record_failure now cb) = Closed → state cb = Closed).
Proof.
  intros (Hth & Hge & Hcl & Hop). unfold record_failure, breaker_wf. simpl.
  rewrite Hth.
  destruct (Z.leb_spec 5 (failure_count cb + 1)) as [Hle|Hlt].
  - repeat split; try done; lia.
  - destruct (state cb) eqn:Hst.
    + repeat split; try done; lia.
    + destruct Hop as [Hop _]; [done|lia].
    + destruct Hop as [Hop _]; [done|lia].
Qed.

Lemma record_success_wf (cb : CircuitBreaker) :
  breaker_wf cb → breaker_wf (record_success cb).
Proof.
  intros (Hth & _). unfold breaker_wf, record_success. simpl.
  split_and!; [done|lia|lia|done].
Qed.

Lemma can_execute_wf (now : Z) (cb cb' : CircuitBreaker) (allowed : bool) :
  breaker_wf cb → can_execute now cb = inr (allowed, cb') → breaker_wf cb'.
Proof.
  intros Hwf Hcan. unfold can_execute in Hcan.
  destruct (state cb) eqn:Hst; [by simplify_eq| |by simplify_eq].
  destruct (last_failure_time cb) eqn:Hlast; [|done].
  destruct (_ <? _)%Z; simplify_eq; [|done].
  destruct Hwf as (Hth & Hge & _ & Hop).
  destruct Hop as [Hfive Hsome]; [by rewrite Hst|].
  unfold breaker_wf. simpl. by split_and!.
Qed.

Section FailingCall.
Context {A : Type}.
Variable operation : nat → op_result A.
Variable rnd : nat → Q.
Variable clock : Clock.
Hypothesis Hfails : always_fails operation.

(** The loop of a call whose awaits all fail never returns, and records at
    most the failure of its [break]. *)
Lemma retry_loop_fails (attempts : list nat) (st : loop_state) :
  ∃ ex st', retry_loop operation rnd clock attempts st = (ex, st') ∧
    (∀ r, ex ≠ LoopReturn r) ∧
    (ls_breaker st' = ls_breaker st ∨
     ls_breaker st' = record_failure (t_break clock) (ls_breaker st)).
Proof.
  revert st. induction attempts as [|attempt rest IH]; intros st.
  - eexists _, _. split; [reflexivity|]. split; [done|by left].
  - simpl. destruct (Hfails (ls_calls st)) as [e ->].
    destruct (_ <=? _)%Z.
    + eexists _, _. split; [reflexivity|]. split; [done|by right].
    + destruct (IH (mkLoop (ls_breaker st) (Some e) (S (ls_calls st))
                      (ls_sleeps st ++ [get_delay
                         (retry_strategies (classify_error e None))
                         attempt (rnd attempt)])))
        as (ex & st' & Heq & Hex & Hcb).
      eexists _, _. split; [exact Heq|]. split; [done|exact Hcb].
Qed.

(** One failing call: the breaker stays well-formed, is not left
    half-open, and is closed afterwards only if it was closed before and
    counts at least one failure more. *)
Lemma failing_call_breaker (h : ErrorHandler) (provider : string) :
  handler_wf h provider →
  let cb := (get_circuit_breaker h provider).1 in
  ∃ cb',
    circuit_breakers
      (run_handler (execute_with_retry operation rnd clock h provider))
      !! provider = Some cb' ∧
    breaker_wf cb' ∧
    state cb' ≠ HalfOpen ∧
    (state cb' = Closed →
       state cb = Closed ∧ (failure_count cb + 1 <= failure_count cb')%Z).
Proof.
  intros Hwf cb.
  pose proof (get_circuit_breaker_wf h provider Hwf) as Hcbwf.
  pose proof (get_circuit_breaker_lookup h provider) as Hlook.
  fold cb in Hcbwf, Hlook.
  destruct (get_circuit_breaker h provider) as [cb0 h'] eqn:Hget.
  simpl in cb, Hlook. subst cb.
  destruct (can_execute (t_check clock) cb0) as [err|[[] cb1]] eqn:Hcan.
  - (* open without a last failure time: excluded *)
    unfold can_execute in Hcan.
    destruct Hcbwf as (_ & _ & _ & Hop).
    destruct (state cb0) eqn:Hst; try done.
    destruct Hop as [_ [t Ht]]; [done|]. rewrite Ht in Hcan.
    by destruct (_ <? _)%Z.
  - (* let through *)
    rewrite (execute_permitted operation rnd clock h h' provider cb0 cb1
               Hget Hcan).
    destruct (retry_loop_fails attempt_range (mkLoop cb1 None 0 []))
      as (ex & st' & -> & Hex & Hcb).
    assert (Hcb1 : breaker_wf cb1 ∧ failure_count cb1 = failure_count cb0 ∧
                   (state cb1 = Closed → state cb0 = Closed)).
    { unfold can_execute in Hcan.
      destruct (state cb0) eqn:Hst.
      - simplify_eq. split; [assumption|]. split; [done|congruence].
      - destruct (last_failure_time cb0) eqn:Hlast; [|done].
        destruct (_ <? _)%Z; [|done]. simplify_eq.
        destruct Hcbwf as (Hth & Hge & Hcl & Hop).
        split; [|done]. unfold breaker_wf. simpl.
        destruct Hop as [Hop1 Hop2]; [by rewrite Hst|].
        by repeat split.
      - simplify_eq. split; [assumption|]. split; [done|congruence]. }
    destruct Hcb1 as (Hwf1 & Hcnt1 & Hcl1).
    simpl in Hcb.
    assert (∃ cb2, ls_breaker st' = cb2 ∧ breaker_wf cb2 ∧
              (failure_count cb0 <= failure_count cb2)%Z ∧
              (state cb2 = Closed → state cb0 = Closed)) as
      (cb2 & Hcb2 & Hwf2 & Hcnt2 & Hcl2).
    { destruct Hcb as [->| ->].
      - exists cb1. split_and!; [done|done|lia|done].
      - destruct (record_failure_wf (t_break clock) cb1 Hwf1)
          as (Hw & _ & Hc & Hs).
        eexists. split_and!; [reflexivity|done|lia|].
        intros Hst. by apply Hcl1, Hs. }
    destruct (record_failure_wf (t_final clock) cb2 Hwf2)
      as (Hw & Hh & Hc & Hs).
    exists (record_failure (t_final clock) cb2).
    assert (Hrun : ∀ r : Run A,
      r = match ex with
          | LoopReturn result =>
              mkRun (Return result) (ls_calls st') (ls_sleeps st')
                    (store_breaker provider (ls_breaker st') h')
          | _ =>
              mkRun (Raise (default TypeError_raise (ls_last_error st')))
                    (ls_calls st') (ls_sleeps st')
                    (store_breaker provider
                       (record_failure (t_final clock) (ls_breaker st')) h')
          end →
      circuit_breakers (run_handler r) !! provider
      = Some (record_failure (t_final clock) cb2)).
    { intros r ->. rewrite Hcb2.
      destruct ex; [by destruct (Hex result)|..];
        simpl; by rewrite lookup_insert_eq. }
    split; [by apply Hrun|]. split; [done|]. split; [done|].
    intros Hst. split; [by apply Hcl2, Hs|lia].
  - (* blocked *)
    rewrite (execute_blocked operation rnd clock h h' provider cb0 cb1
               Hget Hcan).
    simpl. rewrite lookup_insert_eq.
    unfold can_execute in Hcan.
    destruct (state cb0) eqn:Hst; try done.
    destruct (last_failure_time cb0); [|done].
    destruct (_ <? _)%Z; [done|]. simplify_eq.
    exists cb1. split; [done|]. split; [done|].
    split; [by rewrite Hst|]. by rewrite Hst.
Qed.

End FailingCall.

Lemma handler_wf_of_lookup (h : ErrorHandler) (provider : string)
    (cb : CircuitBreaker) :
  circuit_breakers h !! provider = Some cb → breaker_wf cb →
  handler_wf h provider.
Proof. intros Hlook Hwf cb' Hcb'. by simplify_eq. Qed.

(** Successive failing calls: the breaker is closed afterwards only if it
    was closed all along and counted every call. *)
Lemma failing_calls_breaker {A : Type} (provider : string)
    (cs : list (Call A)) (h : ErrorHandler) :
  Forall (λ c, always_fails (call_operation c)) cs →
  handler_wf h provider →
  let cb0 := (get_circuit_breaker h provider).1 in
  let cb := (get_circuit_breaker (run_calls_on provider cs h) provider).1 in
  breaker_wf cb ∧
  (state cb = Closed →
     (failure_count cb0 + Z.of_nat (length cs) <= failure_count cb)%Z) ∧
  (cs ≠ [] →
     state cb ≠ HalfOpen ∧
     circuit_breakers (run_calls_on provider cs h) !! provider = Some cb).
Proof.
  revert h. induction cs as [|c cs IH]; intros h Hall Hwf; simpl.
  - split; [by apply get_circuit_breaker_wf|]. split; [lia|done].
  - apply Forall_cons in Hall as [Hc Hall].
    destruct (failing_call_breaker (call_operation c) (call_rnd c)
                (call_clock c) Hc h provider Hwf)
      as (cb1 & Hlook1 & Hwf1 & Hho1 & Hcl1).
    fold (run_call h provider c) in Hlook1.
    set (h1 := run_handler (run_call h provider c)) in *.
    pose proof (handler_wf_of_lookup h1 provider cb1 Hlook1 Hwf1) as Hwfh1.
    destruct (IH h1 Hall Hwfh1) as (Hwf' & Hcl' & Hne').
    rewrite (get_circuit_breaker_stored h1 provider cb1 Hlook1) in Hcl'.
    simpl in Hcl'.
    split; [done|]. split.
    + intros Hst.
      destruct cs as [|c' cs'].
      * simpl in *.
        rewrite (get_circuit_breaker_stored h1 provider cb1 Hlook1) in Hst.
        rewrite (get_circuit_breaker_stored h1 provider cb1 Hlook1).
        simpl in *. destruct (Hcl1 Hst). lia.
      * destruct Hne' as [Hho' Hlook']; [done|].
        specialize (Hcl' Hst).
        (* the breaker was closed after the first call too *)
        assert (state cb1 = Closed) as Hst1.
        { destruct Hwf1 as (_ & _ & _ & Hop1).
          destruct Hwf' as (_ & _ & Hlt' & _).
          specialize (Hlt' Hst).
          destruct (state cb1) eqn:E; [done|..];
            (destruct Hop1 as [Hop1 _]; [done|]);
            simpl length in Hcl'; lia. }
        destruct (Hcl1 Hst1). simpl length in *. lia.
    + intros _.
      destruct cs as [|c' cs'].
      * simpl.
        rewrite (get_circuit_breaker_stored h1 provider cb1 Hlook1).
        done.
      * by apply Hne'.
Qed.

(** C5: after five successive calls against a provider whose awaits all
    fail (no success in between), the provider's breaker is open; a sixth
    call made while [recovery_timeout] has not passed since the last failure
    raises the circuit-open error, awaits the operation zero times, sleeps
    for no retry, and leaves the breaker as it was.  The errors may be of
    any kind: the count of recorded failures per call is one or two. *)
Theorem circuit_opens_after_five_failing_calls {A : Type}
    (h : ErrorHandler) (provider : string) (cs : list (Call A)) :
  handler_wf h provider →
  length cs = 5 →
  Forall (λ c, always_fails (call_operation c)) cs →
  ∃ cb t,
    circuit_breakers (run_calls_on provider cs h) !! provider = Some cb ∧
    state cb = Open ∧
    last_failure_time cb = Some t ∧
    ∀ c6 : Call A,
      (t_check (call_clock c6) - t <= recovery_timeout cb)%Z →
      let r := run_call (run_calls_on provider cs h) provider c6 in
      run_outcome r = Raise (circuit_open_error provider) ∧
      run_calls r = 0 ∧
      run_sleeps r = [] ∧
      circuit_breakers (run_handler r) !! provider = Some cb.
Proof.
  intros Hwf Hlen Hall.
  destruct (failing_calls_breaker provider cs h Hall Hwf)
    as (Hwf5 & Hcl5 & Hne5).
  destruct Hne5 as [Hho5 Hlook5]; [by destruct cs|].
  set (h5 := run_calls_on provider cs h) in *.
  set (cb := (get_circuit_breaker h5 provider).1) in *.
  pose proof (get_circuit_breaker_wf h provider Hwf) as Hwf0.
  assert (Hopen : state cb = Open).
  { destruct Hwf5 as (_ & _ & Hlt & _).
    destruct Hwf0 as (_ & Hge0 & _).
    destruct (state cb) eqn:Hst; [|done|done].
    specialize (Hlt eq_refl). specialize (Hcl5 eq_refl). lia. }
  destruct Hwf5 as (_ & _ & _ & Hop).
  destruct Hop as [_ [t Ht]]; [by rewrite Hopen|].
  exists cb, t. split_and!; [done..|].
  intros c6 Htime r. subst r. unfold run_call.
  pose proof (get_circuit_breaker_stored h5 provider cb Hlook5) as Hget.
  assert (Hcan : can_execute (t_check (call_clock c6)) cb = inr (false, cb)).
  { unfold can_execute. rewrite Hopen, Ht.
    destruct (Z.ltb_spec (recovery_timeout cb)
                (t_check (call_clock c6) - t)); [lia|done]. }
  rewrite (execute_blocked (call_operation c6) (call_rnd c6) (call_clock c6)
             h5 h5 provider cb cb Hget Hcan).
  simpl. by rewrite lookup_insert_eq.
Qed.

Lemma circuit_opens_after_five_failing_calls_witness :
  ∃ cb t,
    circuit_breakers (run_calls_on "P" [unavailable; unavailable; unavailable; unavailable;
       unavailable] ErrorHandler_new)
      !! "P" = Some cb ∧
    state cb = Open ∧
    last_failure_time cb = Some t ∧
    ∀ c6 : Call unit,
      (t_check (call_clock c6) - t <= recovery_timeout cb)%Z →
      let r := run_call (run_calls_on "P" [unavailable; unavailable; unavailable; unavailable;
       unavailable] ErrorHandler_new)
                        "P" c6 in
      run_outcome r = Raise (circuit_open_error "P") ∧
      run_calls r = 0 ∧
      run_sleeps r = [] ∧
      circuit_breakers (run_handler r) !! "P" = Some cb.
Proof.
  apply (circuit_opens_after_five_failing_calls ErrorHandler_new "P"
           [unavailable; unavailable; unavailable; unavailable;
       unavailable]).
  - intros cb Hcb. simpl in Hcb. by rewrite lookup_empty in Hcb.
  - reflexivity.
  - repeat constructor; intros n; by eexists.
Defined.

End ErrorHandlerSpec.

(** ** Serialized stream events *)

Module ModelsSpec.
Import Models.

(** C4, as the code has it: a serialized [StreamEvent] has the members
    [type], [pane_id], [data] and [timestamp]; the members of [data] are the
    fields of the class of the payload, for a [TokenData] payload [token]
    and [position]. *)
Theorem model_dump_json_fields (e : StreamEvent) :
  keys (model_dump_json e) = ["type"; "pane_id"; "data"; "timestamp"] ∧
  field "type" (model_dump_json e) = Some (JStr (type_str (type e))) ∧
  field "pane_id" (model_dump_json e) = Some (JStr (pane_id e)) ∧
  field "timestamp" (model_dump_json e) = Some (JDatetime (timestamp e)) ∧
  field "data" (model_dump_json e) = Some (dump_data (data e)) ∧
  data_keys e = data_fields (data e) ∧
  (∀ d, data e = D_token d → data_keys e = ["token"; "position"]).
Proof.
  split_and!; try reflexivity.
  - by destruct e as [ty p [d|d|d|d|d] t].
  - intros d Hd. unfold data_keys. simpl. by rewrite Hd.
Qed.

Lemma model_dump_json_fields_witness :
  data_keys token_event = ["token"; "position"].
Proof.
  by apply (model_dump_json_fields token_event)
    with (d := TokenData.mk "Hel" 0).
Defined.

(** C4 as stated fails: the [data] of a serialized token event has no
    member [text]; its members are [token] and [position]. *)
Lemma token_event_has_no_text :
  type token_event = T_token ∧
  data_keys token_event ≠ ["text"; "position"] ∧
  field "text" (dump_data (data token_event)) = None.
Proof. by split_and!. Qed.

(** The two fields [type] and [data] are validated apart: an event of type
    token can carry the payload of another class. *)
Lemma type_does_not_fix_payload :
  ∃ e : StreamEvent,
    type e = T_token ∧
    data_keys e = ["content"; "finish_reason"; "message_id"].
Proof.
  by exists (mkStreamEvent T_token "pane-1"
               (D_final (FinalData.mk "Hello" "stop" None)) 0).
Qed.

End ModelsSpec.

(** ** Connection table and session index *)

Module WebSocketManagerSpec.
Import WebSocketManager.

Implicit Types (m : EnhancedConnectionManager) (c s : string).

(** Consistency, connection by connection. *)
Lemma consistent_iff m :
  consistent m ↔
  ∀ s c, indexed m s c ↔
         ∃ info, connections m !! c = Some info ∧ session_id info = s.
Proof.
  split.
  - intros [Hidx Htab] s c. split.
    + intros Hin. destruct (Hidx s c Hin) as [info Hinfo].
      exists info. split; [done|]. symmetry. by apply (Htab c info Hinfo).
    + intros (info & Hinfo & <-). by apply (Htab c info Hinfo).
  - intros Hpt. split.
    + intros s c Hin. apply Hpt in Hin as (info & -> & _). by eexists.
    + intros c info Hinfo s. rewrite Hpt. split.
      * intros (info' & Hinfo' & <-). congruence.
      * intros ->. by exists info.
Qed.

(** *** [connect] *)

Lemma connect_refused (e : exn) c (now1 now2 : Z) (ws : WebSocket) s m :
  connect (Some e) c now1 now2 ws s m = (inl e, m).
Proof. reflexivity. Qed.

Lemma connect_connections c (now1 now2 : Z) (ws : WebSocket) s m :
  connections (connect None c now1 now2 ws s m).2
  = <[c := mkConnectionInfo ws s now1 now2 0 true]> (connections m).
Proof. reflexivity. Qed.

Lemma connect_index c (now1 now2 : Z) (ws : WebSocket) s m :
  session_connections (connect None c now1 now2 ws s m).2
  = <[s := default ∅ (session_connections m !! s) ∪ {[c]}]>
      (session_connections m).
Proof.
  simpl. destruct (session_connections m !! s) as [ids|] eqn:Hs.
  - by rewrite Hs.
  - rewrite lookup_insert_eq. simpl. by rewrite insert_insert_eq.
Qed.

Lemma indexed_connect c (now1 now2 : Z) (ws : WebSocket) s m s' c' :
  indexed (connect None c now1 now2 ws s m).2 s' c' ↔
  indexed m s' c' ∨ (s' = s ∧ c' = c).
Proof.
  unfold indexed. rewrite connect_index.
  destruct (decide (s' = s)) as [->|Hne].
  - rewrite lookup_insert_eq. split.
    + intros (ids & [= <-] & Hin).
      apply elem_of_union in Hin as [Hin|Hin].
      * left. destruct (session_connections m !! s) as [ids|]; simpl in Hin.
        -- by exists ids.
        -- set_solver.
      * right. set_solver.
    + intros [(ids & Hids & Hin)|[_ ->]]; eexists; (split; [done|]).
      * rewrite Hids. simpl. set_solver.
      * set_solver.
  - rewrite lookup_insert_ne by done. naive_solver.
Qed.

(** *** [disconnect] *)

Lemma disconnect_absent c (reason : string) m :
  connections m !! c = None → disconnect c reason m = m.
Proof. intros H. unfold disconnect. by rewrite H. Qed.

Lemma disconnect_connections c (reason : string) m :
  connections (disconnect c reason m) = delete c (connections m).
Proof.
  unfold disconnect. destruct (connections m !! c) eqn:Hc; simpl.
  - done.
  - by rewrite delete_id.
Qed.

Lemma indexed_disconnect c (reason : string) m info s' c' :
  connections m !! c = Some info →
  indexed (disconnect c reason m) s' c' ↔
  indexed m s' c' ∧ ¬ (s' = session_id info ∧ c' = c).
Proof.
  intros Hc. unfold indexed, disconnect. rewrite Hc. simpl.
  destruct (session_connections m !! session_id info) as [ids|] eqn:Hs.
  - destruct (decide (ids ∖ {[c]} = ∅)) as [Hempty|Hnonempty].
    + destruct (decide (s' = session_id info)) as [->|Hne].
      * rewrite lookup_delete_eq. split; [naive_solver|].
        intros [(ids' & Hids' & Hin) Hnot].
        assert (ids' = ids) as -> by congruence.
        assert (c' ∈ ids ∖ {[c]}) by set_solver. set_solver.
      * rewrite lookup_delete_ne by done. naive_solver.
    + destruct (decide (s' = session_id info)) as [->|Hne].
      * rewrite lookup_insert_eq, Hs. split.
        -- intros (ids' & [= <-] & Hin). split; [exists ids|]; set_solver.
        -- intros [(ids' & [= <-] & Hin) Hnot]. eexists. split; [done|].
           set_solver.
      * rewrite lookup_insert_ne by done. naive_solver.
  - split; [|naive_solver].
    intros (ids & Hids & Hin). split; [by exists ids|].
    intros [-> _]. congruence.
Qed.

Lemma disconnect_index_other c (reason : string) m info s' :
  connections m !! c = Some info → s' ≠ session_id info →
  session_connections (disconnect c reason m) !! s'
  = session_connections m !! s'.
Proof.
  intros Hc Hne. unfold disconnect. rewrite Hc. simpl.
  destruct (session_connections m !! session_id info) as [ids|]; [|done].
  destruct (decide _).
  - by rewrite lookup_delete_ne.
  - by rewrite lookup_insert_ne.
Qed.

(** *** Consistency is kept *)

Lemma consistent_new : consistent EnhancedConnectionManager_new.
Proof.
  apply consistent_iff. intros s c. unfold indexed. simpl.
  rewrite !lookup_empty. naive_solver.
Qed.

Lemma connect_consistent (accept : option exn) c (now1 now2 : Z)
    (ws : WebSocket) s m :
  consistent m → connections m !! c = None →
  consistent (connect accept c now1 now2 ws s m).2.
Proof.
  intros Hm Hfresh. destruct accept as [e|]; [done|].
  rewrite consistent_iff in Hm. apply consistent_iff. intros s' c'.
  rewrite indexed_connect, connect_connections, Hm.
  destruct (decide (c' = c)) as [->|Hne].
  - rewrite lookup_insert_eq, Hfresh. split.
    + intros [(info & ? & _)|[-> _]]; [done|]. by eexists.
    + intros (info & [= <-] & <-). by right.
  - rewrite lookup_insert_ne by done. naive_solver.
Qed.

Lemma disconnect_consistent c (reason : string) m :
  consistent m → consistent (disconnect c reason m).
Proof.
  intros Hm. destruct (connections m !! c) as [info|] eqn:Hc.
  - rewrite consistent_iff in Hm. apply consistent_iff. intros s' c'.
    rewrite (indexed_disconnect c reason m info) by done.
    rewrite disconnect_connections, Hm.
    destruct (decide (c' = c)) as [->|Hne].
    + rewrite lookup_delete_eq, Hc. naive_solver.
    + rewrite lookup_delete_ne by done. naive_solver.
  - by rewrite disconnect_absent.
Qed.

(** Consistency reads the sessions of the table only. *)
Lemma consistent_same_sessions m (table : gmap string ConnectionInfo) :
  (∀ c, session_id <$> table !! c = session_id <$> connections m !! c) →
  consistent m →
  consistent (mkManager table (session_connections m)
                        (background_tasks_started m)).
Proof.
  intros Hsame Hm. rewrite consistent_iff in Hm. apply consistent_iff.
  intros s c. unfold indexed in *. simpl. rewrite Hm.
  specialize (Hsame c).
  destruct (table !! c) as [i1|], (connections m !! c) as [i2|];
    simpl in Hsame; simplify_eq; naive_solver.
Qed.

(** *** The two loops of [send_event] *)

Lemma cleanup_consistent (failed : list string) m :
  consistent m →
  consistent (foldl (λ m c, disconnect c "send_failure" m) m failed).
Proof.
  revert m. induction failed as [|c failed IH]; intros m Hm; simpl; [done|].
  by apply IH, disconnect_consistent.
Qed.

Lemma cleanup_connections (failed : list string) m c :
  connections (foldl (λ m c, disconnect c "send_failure" m) m failed) !! c
  = if decide (c ∈ failed) then None else connections m !! c.
Proof.
  revert m. induction failed as [|c0 failed IH]; intros m; cbn [foldl].
  - case_decide; [set_solver|done].
  - rewrite IH, disconnect_connections.
    destruct (decide (c = c0)) as [->|Hne].
    + rewrite lookup_delete_eq. repeat case_decide; set_solver.
    + rewrite lookup_delete_ne by done. repeat case_decide; set_solver.
Qed.

Section SendLoop.
Variable send_text : WebSocket → Models.json → send_result.
Variable event : Models.StreamEvent.


Lemma send_one_connections (st : send_state) c c' :
  ss_connections (send_one send_text event st c) !! c'
  = if decide (c' = c)
    then (λ info, after_send (send_result_of send_text event info) info) <$> ss_connections st !! c
    else ss_connections st !! c'.
Proof.
  unfold send_one, send_result_of.
  destruct (decide (c' = c)) as [->|Hne].
  - destruct (ss_connections st !! c) as [info|] eqn:Hc; simpl; [|done].
    destruct (send_text _ _); simpl.
    + by rewrite lookup_insert_eq.
    + done.
    + destruct (_ <=? _)%Z; simpl; by rewrite lookup_insert_eq.
  - destruct (ss_connections st !! c) as [info|] eqn:Hc; simpl; [|done].
    destruct (send_text _ _); simpl.
    + by rewrite lookup_insert_ne.
    + done.
    + destruct (_ <=? _)%Z; simpl; by rewrite lookup_insert_ne.
Qed.

Lemma send_one_failed (st : send_state) c c' :
  c' ∈ failed_connections (send_one send_text event st c) ↔
  c' ∈ failed_connections st ∨
  (c' = c ∧ match ss_connections st !! c with
            | Some info => dropped (send_result_of send_text event info) info = true
            | None => True
            end).
Proof.
  unfold send_one, send_result_of.
  destruct (ss_connections st !! c) as [info|] eqn:Hc; simpl.
  - destruct (send_text _ _); simpl.
    + naive_solver.
    + rewrite elem_of_app, list_elem_of_singleton. naive_solver.
    + destruct (_ <=? _)%Z; simpl.
      * rewrite elem_of_app, list_elem_of_singleton. naive_solver.
      * naive_solver.
  - rewrite elem_of_app, list_elem_of_singleton. naive_solver.
Qed.

Lemma after_send_session (r : send_result) (info : ConnectionInfo) :
  session_id (after_send r info) = session_id info.
Proof.
  destruct r; simpl; [done..|]. by destruct (_ <=? _)%Z.
Qed.

(** The first loop over ids that are pairwise different. *)
Lemma send_loop_connections (l : list string) (st : send_state) c :
  NoDup l →
  ss_connections (foldl (send_one send_text event) st l) !! c
  = if decide (c ∈ l)
    then (λ info, after_send (send_result_of send_text event info) info) <$> ss_connections st !! c
    else ss_connections st !! c.
Proof.
  revert st. induction l as [|c0 l IH]; intros st Hnd; cbn [foldl].
  - case_decide; [set_solver|done].
  - apply NoDup_cons in Hnd as [Hnotin Hnd].
    rewrite IH by done. rewrite send_one_connections.
    repeat case_decide; subst; try done; set_solver.
Qed.

Lemma send_loop_failed (l : list string) (st : send_state) c :
  NoDup l →
  c ∈ failed_connections (foldl (send_one send_text event) st l) ↔
  c ∈ failed_connections st ∨
  (c ∈ l ∧ match ss_connections st !! c with
           | Some info => dropped (send_result_of send_text event info) info = true
           | None => True
           end).
Proof.
  revert st. induction l as [|c0 l IH]; intros st Hnd; cbn [foldl].
  - set_solver.
  - apply NoDup_cons in Hnd as [Hnotin Hnd].
    rewrite IH by done. rewrite send_one_failed, send_one_connections.
    destruct (decide (c = c0)) as [->|Hne].
    + split; [|set_solver].
      intros [[?|[_ ?]]|[Hin _]]; [set_solver| |done].
      right. split; [set_solver|done].
    + split.
      * intros [[?|[? _]]|[Hin ?]]; [by left|done|]. right.
        split; [set_solver|done].
      * intros [?|[Hin ?]]; [by left; left|]. right.
        split; [set_solver|done].
Qed.

(** [send_event] in terms of the two loops. *)
Lemma send_event_unfold s m (ids : gset string) :
  session_connections m !! s = Some ids →
  (send_event send_text event s m).2
  = foldl (λ m c, disconnect c "send_failure" m)
      (mkManager
         (ss_connections
            (foldl (send_one send_text event) (mkSend (connections m) 0 [])
                   (elements ids)))
         (session_connections m) (background_tasks_started m))
      (failed_connections
         (foldl (send_one send_text event) (mkSend (connections m) 0 [])
                (elements ids))).
Proof. intros Hs. unfold send_event. by rewrite Hs. Qed.

Lemma send_event_no_session s m :
  session_connections m !! s = None →
  send_event send_text event s m = (false, m).
Proof. intros Hs. unfold send_event. by rewrite Hs. Qed.

Lemma send_event_consistent s m :
  consistent m → consistent (send_event send_text event s m).2.
Proof.
  intros Hm. destruct (session_connections m !! s) as [ids|] eqn:Hs.
  - rewrite (send_event_unfold s m ids Hs).
    apply cleanup_consistent, consistent_same_sessions; [|done].
    intros c. rewrite send_loop_connections by apply NoDup_elements.
    simpl. destruct (decide _); [|done].
    destruct (connections m !! c); simpl; [|done].
    by rewrite after_send_session.
  - by rewrite send_event_no_session.
Qed.

End SendLoop.

(** C9: the empty manager is consistent, and [connect] (drawing an id that
    is not in the table), [disconnect] and [send_event] keep the manager
    consistent: every id of an index entry is in the connection table, and
    every id of the table is in the index entry of its own session and in no
    other entry. *)
Theorem operations_keep_consistent :
  consistent EnhancedConnectionManager_new ∧
  ∀ (o : manager_op) m,
    consistent m → fresh_id o m → consistent (run o m).
Proof.
  split; [apply consistent_new|].
  intros [accept c now1 now2 ws s|c reason|send_text event s] m Hm Hfresh.
  - by apply connect_consistent.
  - by apply disconnect_consistent.
  - by apply send_event_consistent.
Qed.

Lemma operations_keep_consistent_witness :
  consistent
    (run (SendEvent peer_gone Models.token_event "S") one_connection).
Proof.
  apply operations_keep_consistent; [|done].
  apply (proj2 operations_keep_consistent
           (Connect None "c1" 0 0 1%N "S") EnhancedConnectionManager_new).
  - apply operations_keep_consistent.
  - reflexivity.
Defined.

(** *** No empty index entry *)

Lemma connect_nonempty (accept : option exn) c (now1 now2 : Z)
    (ws : WebSocket) s m :
  index_nonempty m → index_nonempty (connect accept c now1 now2 ws s m).2.
Proof.
  intros Hm. destruct accept as [e|]; [done|].
  intros s' ids. rewrite connect_index.
  destruct (decide (s' = s)) as [->|Hne].
  - rewrite lookup_insert_eq. intros [= <-]. set_solver.
  - rewrite lookup_insert_ne by done. apply Hm.
Qed.

Lemma disconnect_nonempty c (reason : string) m :
  index_nonempty m → index_nonempty (disconnect c reason m).
Proof.
  intros Hm s' ids'. unfold disconnect.
  destruct (connections m !! c) as [info|]; [|apply Hm]. simpl.
  destruct (session_connections m !! session_id info) as [ids|];
    [|apply Hm].
  destruct (decide (ids ∖ {[c]} = ∅)) as [Hempty|Hnonempty].
  - destruct (decide (s' = session_id info)) as [->|Hne].
    + by rewrite lookup_delete_eq.
    + rewrite lookup_delete_ne by done. apply Hm.
  - destruct (decide (s' = session_id info)) as [->|Hne].
    + rewrite lookup_insert_eq. by intros [= <-].
    + rewrite lookup_insert_ne by done. apply Hm.
Qed.

Lemma cleanup_nonempty (failed : list string) m :
  index_nonempty m →
  index_nonempty (foldl (λ m c, disconnect c "send_failure" m) m failed).
Proof.
  revert m. induction failed as [|c failed IH]; intros m Hm; simpl; [done|].
  by apply IH, disconnect_nonempty.
Qed.

Lemma send_event_nonempty
    (send_text : WebSocket → Models.json → send_result)
    (event : Models.StreamEvent) s m :
  index_nonempty m → index_nonempty (send_event send_text event s m).2.
Proof.
  intros Hm. destruct (session_connections m !! s) as [ids|] eqn:Hs.
  - rewrite (send_event_unfold send_text event s m ids Hs).
    by apply cleanup_nonempty.
  - by rewrite send_event_no_session.
Qed.

(** The entry of a session goes with its last connection. *)
Lemma disconnect_last c (reason : string) m info :
  connections m !! c = Some info →
  session_connections m !! session_id info = Some {[c]} →
  session_connections (disconnect c reason m) !! session_id info = None.
Proof.
  intros Hc Hs. unfold disconnect. rewrite Hc. simpl. rewrite Hs.
  rewrite decide_True by set_solver. apply lookup_delete_eq.
Qed.

(** C10: the index of the empty manager has no entry, [connect],
    [disconnect] and [send_event] leave no session of the index with an
    empty set, [disconnect] deletes the entry of a session when it removes
    its last connection, and [send_event] returns false and changes nothing
    for a session that has no entry. *)
Theorem operations_keep_index_nonempty :
  index_nonempty EnhancedConnectionManager_new ∧
  (∀ (o : manager_op) m, index_nonempty m → index_nonempty (run o m)) ∧
  (∀ c (reason : string) m info,
     connections m !! c = Some info →
     session_connections m !! session_id info = Some {[c]} →
     session_connections (disconnect c reason m) !! session_id info = None) ∧
  (∀ send_text event s m,
     session_connections m !! s = None →
     send_event send_text event s m = (false, m)).
Proof.
  split_and!.
  - intros s ids. simpl. by rewrite lookup_empty.
  - intros [accept c now1 now2 ws s|c reason|send_text event s] m Hm.
    + by apply connect_nonempty.
    + by apply disconnect_nonempty.
    + by apply send_event_nonempty.
  - apply disconnect_last.
  - apply send_event_no_session.
Qed.

Lemma operations_keep_index_nonempty_witness :
  index_nonempty (run (Disconnect "c1" "client_disconnect") one_connection) ∧
  session_connections (disconnect "c1" "client_disconnect" one_connection)
    !! "S" = None ∧
  send_event peer_gone Models.token_event "S" EnhancedConnectionManager_new
  = (false, EnhancedConnectionManager_new).
Proof.
  destruct operations_keep_index_nonempty as (Hnew & Hrun & Hlast & Hnone).
  split_and!.
  - apply Hrun. apply (Hrun (Connect None "c1" 0 0 1%N "S")). exact Hnew.
  - apply (Hlast "c1" "client_disconnect" one_connection
             (mkConnectionInfo 1%N "S" 0 0 0 true)); by vm_compute.
  - by apply Hnone.
Defined.

(** *** Failed sends *)

(** C3, as the code has it: in a broadcast to a session of a consistent
    manager, each connection of the session is sent to once.  A send that
    succeeds resets its counter and keeps it registered.  A send that raises
    an exception other than [WebSocketDisconnect] adds one to the counter;
    when the counter reaches [max_failed_sends = 3] the connection is marked
    dead and then removed from the table and from the index, and below that
    it stays registered with the new count.  A send that raises [WebSocketDisconnect] removes
    the connection from the table and the index at once, whatever the
    counter is, and does not count. *)
Theorem send_event_failed_sends
    (send_text : WebSocket → Models.json → send_result)
    (event : Models.StreamEvent) s m (ids : gset string) c
    (info : ConnectionInfo) :
  consistent m →
  session_connections m !! s = Some ids →
  c ∈ ids →
  connections m !! c = Some info →
  let m' := (send_event send_text event s m).2 in
  match send_text (websocket info) (Models.model_dump_json event) with
  | SendOk =>
      connections m' !! c = Some (set_failed_sends 0 info) ∧ indexed m' s c
  | SendDisconnect =>
      connections m' !! c = None ∧ ∀ s', ¬ indexed m' s' c
  | SendError _ =>
      if (max_failed_sends <=? failed_sends info + 1)%Z
      then ss_connections (after_sends send_text event ids m) !! c
           = Some (set_is_alive false
                     (set_failed_sends (failed_sends info + 1) info)) ∧
           connections m' !! c = None ∧ ∀ s', ¬ indexed m' s' c
      else connections m' !! c
           = Some (set_failed_sends (failed_sends info + 1) info) ∧
           indexed m' s c
  end.
Proof.
  intros Hm Hs Hin Hc m'.
  assert (Hsent : ss_connections (after_sends send_text event ids m) !! c
                  = Some (after_send (send_result_of send_text event info)
                                     info)).
  { unfold after_sends.
    rewrite send_loop_connections by apply NoDup_elements. simpl.
    rewrite decide_True by by apply elem_of_elements.
    by rewrite Hc. }
  unfold send_result_of in Hsent.
  pose proof (send_event_consistent send_text event s m Hm) as Hm'.
  fold m' in Hm'.
  set (r := send_text (websocket info) (Models.model_dump_json event)).
  assert (Hsess : session_id info = s).
  { destruct Hm as [_ Htab]. symmetry. apply (Htab c info Hc).
    by exists ids. }
  assert (Hlook : connections m' !! c
                  = if dropped r info then None
                    else Some (after_send r info)).
  { unfold m'. rewrite (send_event_unfold send_text event s m ids Hs).
    rewrite cleanup_connections.
    assert (Hfailed :
      c ∈ failed_connections
            (foldl (send_one send_text event) (mkSend (connections m) 0 [])
                   (elements ids))
      ↔ dropped r info = true).
    { rewrite send_loop_failed by apply NoDup_elements. simpl.
      rewrite Hc, elem_of_elements. set_solver. }
    destruct (dropped r info) eqn:Hd.
    - by rewrite decide_True by by apply Hfailed.
    - rewrite decide_False by (rewrite Hfailed; done).
      cbn [connections].
      rewrite send_loop_connections by apply NoDup_elements. simpl.
      rewrite decide_True by by apply elem_of_elements.
      by rewrite Hc. }
  assert (Hgone : connections m' !! c = None → ∀ s', ¬ indexed m' s' c).
  { intros Hnone s' Hidx. destruct Hm' as [Hidx' _].
    destruct (Hidx' s' c Hidx) as [? ?]. congruence. }
  assert (Hkept : ∀ info', connections m' !! c = Some info' →
                           session_id info' = s → indexed m' s c).
  { intros info' Hc' Hs'. destruct Hm' as [_ Htab'].
    by apply (Htab' c info' Hc'). }
  destruct r as [| |e] eqn:Hr; simpl in Hlook.
  - split; [done|]. by apply (Hkept _ Hlook).
  - split; [done|]. by apply Hgone.
  - destruct (max_failed_sends <=? failed_sends info + 1)%Z eqn:Hle.
    + fold r in Hsent. rewrite Hr in Hsent. unfold after_send in Hsent.
      cbn [failed_sends set_failed_sends] in Hsent. rewrite Hle in Hsent.
      split; [exact Hsent|]. split; [done|]. by apply Hgone.
    + split; [done|]. by apply (Hkept _ Hlook).
Qed.

Lemma send_event_failed_sends_witness :
  connections (send_event send_fails Models.token_event "S" one_connection).2
    !! "c1" = Some (mkConnectionInfo 1%N "S" 0 0 1 true) ∧
  indexed (send_event send_fails Models.token_event "S" one_connection).2
    "S" "c1".
Proof.
  apply (send_event_failed_sends send_fails Models.token_event "S"
           one_connection {["c1"]} "c1"
           (mkConnectionInfo 1%N "S" 0 0 0 true)).
  - apply connect_consistent; [apply consistent_new|reflexivity].
  - by vm_compute.
  - by apply elem_of_singleton.
  - by vm_compute.
Defined.

(** C3 as stated fails: the one connection of session ["S"] has no failed
    send, the transport reports the peer gone on the first send, and the
    connection is removed from the table and the index. *)
Lemma send_event_disconnect_removes_at_once :
  ¬ removed_only_at_threshold peer_gone Models.token_event "S" one_connection.
Proof.
  intros Hclaim.
  specialize (Hclaim "c1" (mkConnectionInfo 1%N "S" 0 0 0 true)).
  unfold max_failed_sends in Hclaim. simpl failed_sends in Hclaim.
  assert (3 <= 0 + 1)%Z; [|lia].
  apply Hclaim; by vm_compute.
Qed.

End WebSocketManagerSpec.

(** * Further properties *)

(** ** Classification, breaker and executor *)

Module ErrorHandlerMore.
Import ErrorHandler ErrorHandlerSpec.

(** X1: a status code below 400 (0 and the negative ones too) decides
    nothing: the kind is the one the message alone gives, and it is never
    service_error or validation_error. *)
Theorem classify_error_low_status (error : exn) (code : Z) :
  (code < 400)%Z →
  classify_error error (Some code) = classify_error error None ∧
  classify_error error (Some code) ≠ SERVICE_ERROR ∧
  classify_error error (Some code) ≠ VALIDATION_ERROR.
Proof.
  intros Hlow.
  assert (Heq : classify_error error (Some code) = classify_error error None).
  { unfold classify_error.
    destruct (code =? 0)%Z; [done|].
    destruct (Z.eqb_spec code 429); [lia|].
    destruct (Z.eqb_spec code 401); [lia|].
    destruct (Z.eqb_spec code 403); [lia|]. simpl.
    destruct (Z.leb_spec 500 code); [lia|].
    destruct (Z.leb_spec 400 code); [lia|done]. }
  rewrite Heq. split; [done|]. apply classify_error_by_message.
Qed.

Lemma classify_error_low_status_witness :
  classify_error (Exn "Exception" "Read timed out") (Some 200%Z)
  = classify_error (Exn "Exception" "Read timed out") None.
Proof.
  apply (classify_error_low_status (Exn "Exception" "Read timed out") 200).
  lia.
Defined.

(** *** Sequences of breaker calls *)

Lemma call_breaker_wf (c : breaker_call) (cb : CircuitBreaker) :
  breaker_wf cb → ∃ cb', call_breaker c cb = inr cb' ∧ breaker_wf cb'.
Proof.
  intros Hwf. destruct c as [now| |now]; simpl.
  - destruct (can_execute now cb) as [err|[allowed cb']] eqn:Hcan.
    + unfold can_execute in Hcan.
      destruct Hwf as (_ & _ & _ & Hop).
      destruct (state cb) eqn:Hst; try done.
      destruct Hop as [_ [t Ht]]; [done|]. rewrite Ht in Hcan.
      by destruct (_ <? _)%Z.
    + exists cb'. split; [done|]. by eapply can_execute_wf.
  - eexists. split; [done|]. by apply record_success_wf.
  - eexists. split; [done|]. by apply record_failure_wf.
Qed.

(** X2: whatever methods are called on a breaker made by
    [CircuitBreaker()], in whatever order and at whatever times, no call
    raises, and the breaker is open or half-open only with at least 5
    failures counted and a last failure time set, and closed only with fewer
    than 5. *)
Theorem breaker_calls_never_raise (cs : list breaker_call) :
  ∃ cb, call_breaker_seq cs CircuitBreaker_new = inr cb ∧
        (0 <= failure_count cb)%Z ∧
        (state cb = Closed → (failure_count cb < 5)%Z) ∧
        (state cb ≠ Closed →
           (5 <= failure_count cb)%Z ∧ is_Some (last_failure_time cb)).
Proof.
  assert (H : ∀ cb0, breaker_wf cb0 →
            ∃ cb, call_breaker_seq cs cb0 = inr cb ∧ breaker_wf cb).
  { induction cs as [|c cs IH]; intros cb0 Hwf; simpl.
    - by exists cb0.
    - destruct (call_breaker_wf c cb0 Hwf) as (cb1 & -> & Hwf1).
      by apply IH. }
  destruct (H CircuitBreaker_new breaker_wf_new) as (cb & Hcb & Hwf).
  exists cb. split; [done|]. apply Hwf.
Qed.

(** X3: failures recorded on a new breaker, with no success in between:
    the count is their number, the last failure time is the time of the last
    one, and the breaker is open exactly from the fifth on. *)
Theorem record_failure_threshold (times : list Z) :
  let cb := foldl (λ cb now, record_failure now cb) CircuitBreaker_new times in
  failure_count cb = Z.of_nat (length times) ∧
  last_failure_time cb = last times ∧
  state cb = (if (5 <=? Z.of_nat (length times))%Z then Open else Closed).
Proof.
  induction times as [|now times IH] using rev_ind; [done|].
  rewrite foldl_app, last_snoc, length_app. simpl.
  destruct IH as (Hcount & _ & Hstate).
  unfold record_failure at 1 2 3. simpl.
  set (cb := foldl _ _ times) in *.
  assert (Hth : failure_threshold cb = 5%Z).
  { subst cb. clear. induction times as [|t times IH] using rev_ind; [done|].
    by rewrite foldl_app. }
  rewrite Hth, Hcount, Hstate.
  split_and!; [lia|done|].
  destruct (Z.leb_spec 5 (Z.of_nat (length times) + 1)),
           (Z.leb_spec 5 (Z.of_nat (length times))),
           (Z.leb_spec 5 (Z.of_nat (length times + 1))); try done; lia.
Qed.

(** X4: the probe of a half-open breaker.  After the recovery timeout a
    tripped breaker lets a call through; a failure recorded then opens it
    again and blocks every call made within [recovery_timeout] of that
    failure, a success recorded then closes it with a count of 0, and calls
    are let through again. *)
Theorem half_open_probe (cb : CircuitBreaker) (now t later : Z) :
  breaker_wf cb →
  state cb = Open →
  last_failure_time cb = Some t →
  (recovery_timeout cb < now - t)%Z →
  ∃ probe,
    can_execute now cb = inr (true, probe) ∧
    (∀ now', (later - now' <= recovery_timeout cb)%Z →
       can_execute later (record_failure now' probe)
       = inr (false, record_failure now' probe)) ∧
    state (record_success probe) = Closed ∧
    failure_count (record_success probe) = 0%Z ∧
    can_execute later (record_success probe)
    = inr (true, record_success probe).
Proof.
  intros (Hth & Hge & _ & Hop) Hst Hlast Hlt.
  destruct Hop as [Hfive _]; [by rewrite Hst|].
  exists (set_state HalfOpen cb). split_and!; try done.
  - unfold can_execute. rewrite Hst, Hlast.
    by destruct (Z.ltb_spec (recovery_timeout cb) (now - t)); [|lia].
  - intros now' Hnow'. unfold can_execute, record_failure. simpl.
    rewrite Hth.
    destruct (Z.leb_spec 5 (failure_count cb + 1)); [|lia]. simpl.
    by destruct (Z.ltb_spec (recovery_timeout cb) (later - now')); [lia|].
Qed.

Lemma half_open_probe_witness :
  ∃ probe,
    can_execute 60000001 tripped = inr (true, probe) ∧
    (∀ now', (60000002 - now' <= recovery_timeout tripped)%Z →
       can_execute 60000002 (record_failure now' probe)
       = inr (false, record_failure now' probe)) ∧
    state (record_success probe) = Closed ∧
    failure_count (record_success probe) = 0%Z ∧
    can_execute 60000002 (record_success probe)
    = inr (true, record_success probe).
Proof.
  apply (half_open_probe tripped 60000001 0 60000002).
  - unfold breaker_wf, tripped. simpl. split_and!; try done; lia.
  - reflexivity.
  - reflexivity.
  - simpl. lia.
Defined.

(** *** The loop of the executor *)

Section Loop.
Context {A : Type}.
Variable operation : nat → op_result A.
Variable rnd : nat → Q.
Variable clock : Clock.

Local Arguments classify_error : simpl never.
Local Arguments get_delay : simpl never.
Local Arguments retry_strategies : simpl never.

(** Awaits and sleeps of the loop: one await per attempt made; one sleep per
    attempt when the range is used up, one less when the loop is left by
    [return] or [break]. *)
Lemma retry_loop_counts (attempts : list nat) (st st' : loop_state)
    (ex : loop_exit A) :
  retry_loop operation rnd clock attempts st = (ex, st') →
  match ex with
  | LoopEnd =>
      ls_calls st' = ls_calls st + length attempts ∧
      length (ls_sleeps st') = length (ls_sleeps st) + length attempts
  | _ =>
      ls_calls st < ls_calls st' ≤ ls_calls st + length attempts ∧
      length (ls_sleeps st') + ls_calls st + 1
      = length (ls_sleeps st) + ls_calls st'
  end.
Proof.
  revert st. induction attempts as [|attempt rest IH]; intros st Hloop;
    simpl in Hloop.
  - simplify_eq. simpl. lia.
  - destruct (operation (ls_calls st)) as [r|e].
    + simplify_eq. simpl. lia.
    + destruct (_ <=? _)%Z.
      * simplify_eq. simpl. lia.
      * apply IH in Hloop. simpl in Hloop. rewrite length_app in Hloop.
        simpl in *. destruct ex; lia.
Qed.

(** The loop over [range(n)] started at the first await. *)
Lemma retry_loop_return (n : nat) (st st' : loop_state) (r : A) :
  retry_loop operation rnd clock (seq (ls_calls st) n) st
  = (LoopReturn r, st') →
  ∃ k, k < n ∧
    operation (ls_calls st + k) = OpOk r ∧
    (∀ j, j < k → within_budget operation (ls_calls st + j)) ∧
    ls_calls st' = ls_calls st + k + 1 ∧
    ls_breaker st' = record_success (ls_breaker st).
Proof.
  revert st. induction n as [|n IH]; intros st Hloop; simpl in Hloop.
  - done.
  - destruct (operation (ls_calls st)) as [r0|e] eqn:Hop.
    + simplify_eq. exists 0. rewrite !Nat.add_0_r. simpl.
      split_and!; try done; lia.
    + destruct (Z.leb_spec (max_retries
                  (retry_strategies (classify_error e None)))
                  (Z.of_nat (ls_calls st))) as [Hle|Hlt]; [done|].
      apply (IH (mkLoop _ _ (S (ls_calls st)) _)) in Hloop
        as (k & Hk & Hok & Hbefore & Hcalls & Hcb).
      simpl in *. exists (S k).
      replace (ls_calls st + S k) with (S (ls_calls st) + k) by lia.
      split_and!; try done; try lia.
      intros [|j] Hj.
      * rewrite Nat.add_0_r. by exists e.
      * replace (ls_calls st + S j) with (S (ls_calls st) + j) by lia.
        apply Hbefore. lia.
Qed.

Lemma retry_loop_succeeds (n k : nat) (st : loop_state) (r : A) :
  k < n →
  operation (ls_calls st + k) = OpOk r →
  (∀ j, j < k → within_budget operation (ls_calls st + j)) →
  ∃ st', retry_loop operation rnd clock (seq (ls_calls st) n) st
         = (LoopReturn r, st').
Proof.
  revert k st. induction n as [|n IH]; intros k st Hk Hok Hbefore; [lia|].
  simpl. destruct k as [|k].
  - rewrite Nat.add_0_r in Hok. rewrite Hok. by eexists.
  - destruct (Hbefore 0) as (e & He & Hbudget); [lia|].
    rewrite Nat.add_0_r in He, Hbudget. rewrite He.
    destruct (Z.leb_spec (max_retries
                (retry_strategies (classify_error e None)))
                (Z.of_nat (ls_calls st))) as [Hle|Hlt]; [lia|].
    apply (IH k (mkLoop _ _ (S (ls_calls st)) _)); cbn [ls_calls].
    + lia.
    + by replace (S (ls_calls st) + k) with (ls_calls st + S k) by lia.
    + intros j Hj.
      replace (S (ls_calls st) + j) with (ls_calls st + S j) by lia.
      apply Hbefore. lia.
Qed.

(** The delays the loop computes, for attempts up to the third. *)
Lemma get_delay_executor (e : exn) (attempt : nat) (r : Q) :
  (attempt <= 2)%nat → (0 <= r)%Q → (r < 1)%Q →
  (0 <= get_delay (retry_strategies (classify_error e None)) attempt r)%Q ∧
  (get_delay (retry_strategies (classify_error e None)) attempt r <= 8)%Q.
Proof.
  intros Hattempt Hr0 Hr1.
  destruct (classify_error_by_message e) as [Hservice _].
  set (K := classify_error e None) in *.
  pose proof (backoff_nonneg (retry_strategies K) attempt
                (retry_strategies_nonneg K)) as Hd.
  assert (Hcap : (backoff (retry_strategies K) attempt <= 8)%Q).
  { assert (attempt = 0 ∨ attempt = 1 ∨ attempt = 2) as [->|[->| ->]]
      by lia; by destruct K. }
  assert (Hjit : jitter (retry_strategies K) = true) by by destruct K.
  unfold get_delay. rewrite Hjit. fold (backoff (retry_strategies K) attempt).
  destruct (jitter_interval (backoff (retry_strategies K) attempt) r)
    as [Hlo Hhi]; [done..|].
  split; nra.
Qed.

Lemma retry_loop_sleeps (attempts : list nat) (st st' : loop_state)
    (ex : loop_exit A) :
  unit_draws rnd →
  Forall (λ attempt, (attempt <= 2)%nat) attempts →
  Forall (λ d, (0 <= d)%Q ∧ (d <= 8)%Q) (ls_sleeps st) →
  retry_loop operation rnd clock attempts st = (ex, st') →
  Forall (λ d, (0 <= d)%Q ∧ (d <= 8)%Q) (ls_sleeps st').
Proof.
  intros Hrnd. revert st.
  induction attempts as [|attempt rest IH]; intros st Hatt Hsl Hloop;
    simpl in Hloop.
  - by simplify_eq.
  - apply Forall_cons in Hatt as [Hattempt Hatt].
    destruct (operation (ls_calls st)) as [r|e].
    + by simplify_eq.
    + destruct (_ <=? _)%Z.
      * by simplify_eq.
      * apply IH in Hloop; [done..|]. simpl.
        apply Forall_app. split; [done|]. apply Forall_singleton.
        destruct (Hrnd attempt). by apply get_delay_executor.
Qed.

Lemma retry_loop_used_up (n : nat) (st : loop_state) :
  (∀ j, j < n → within_budget operation (ls_calls st + j)) →
  ∃ st', retry_loop operation rnd clock (seq (ls_calls st) n) st
         = (LoopEnd, st') ∧
    ls_breaker st' = ls_breaker st ∧
    ls_calls st' = ls_calls st + n ∧
    (∀ e, 0 < n → operation (ls_calls st + n - 1) = OpRaise e →
          ls_last_error st' = Some e).
Proof.
  revert st. induction n as [|n IH]; intros st Hall; simpl.
  - eexists. split_and!; try done; lia.
  - destruct (Hall 0) as (e & He & Hbudget); [lia|].
    rewrite Nat.add_0_r in He, Hbudget. rewrite He.
    destruct (Z.leb_spec (max_retries
                (retry_strategies (classify_error e None)))
                (Z.of_nat (ls_calls st))) as [Hle|Hlt]; [lia|].
    destruct (IH (mkLoop (ls_breaker st) (Some e) (S (ls_calls st))
                    (ls_sleeps st ++ [get_delay
                       (retry_strategies (classify_error e None))
                       (ls_calls st) (rnd (ls_calls st))])))
      as (st' & Hloop & Hcb & Hcalls & Hlast).
    { intros j Hj. cbn [ls_calls].
      replace (S (ls_calls st) + j) with (ls_calls st + S j) by lia.
      apply Hall. lia. }
    cbn [ls_calls ls_breaker] in *.
    exists st'. split_and!; try done; try lia.
    intros e' _ He'. destruct n as [|n].
    + simpl in Hloop. simplify_eq. simpl.
      replace (ls_calls st + 1 - 1) with (ls_calls st) in He' by lia.
      congruence.
    + apply Hlast; [lia|].
      by replace (S (ls_calls st) + S n - 1)
        with (ls_calls st + S (S n) - 1) by lia.
Qed.

Lemma retry_loop_breaks (n k : nat) (st : loop_state) (e : exn) :
  k < n →
  (∀ j, j < k → within_budget operation (ls_calls st + j)) →
  operation (ls_calls st + k) = OpRaise e →
  (max_retries (retry_strategies (classify_error e None))
   <= Z.of_nat (ls_calls st + k))%Z →
  ∃ st', retry_loop operation rnd clock (seq (ls_calls st) n) st
         = (LoopBreak, st') ∧
    ls_breaker st' = record_failure (t_break clock) (ls_breaker st) ∧
    ls_calls st' = ls_calls st + k + 1 ∧
    ls_last_error st' = Some e.
Proof.
  revert k st. induction n as [|n IH]; intros k st Hk Hbefore He Hmax; [lia|].
  simpl. destruct k as [|k].
  - rewrite Nat.add_0_r in He, Hmax. rewrite He.
    destruct (Z.leb_spec (max_retries
                (retry_strategies (classify_error e None)))
                (Z.of_nat (ls_calls st))) as [Hle|Hlt]; [|lia].
    eexists. split_and!; try done. simpl. lia.
  - destruct (Hbefore 0) as (e0 & He0 & Hbudget); [lia|].
    rewrite Nat.add_0_r in He0, Hbudget. rewrite He0.
    destruct (Z.leb_spec (max_retries
                (retry_strategies (classify_error e0 None)))
                (Z.of_nat (ls_calls st))) as [Hle|Hlt]; [lia|].
    destruct (IH k (mkLoop (ls_breaker st) (Some e0) (S (ls_calls st))
                    (ls_sleeps st ++ [get_delay
                       (retry_strategies (classify_error e0 None))
                       (ls_calls st) (rnd (ls_calls st))])))
      as (st' & Hloop & Hcb & Hcalls & Hlast); cbn [ls_calls].
    + lia.
    + intros j Hj.
      replace (S (ls_calls st) + j) with (ls_calls st + S j) by lia.
      apply Hbefore. lia.
    + by replace (S (ls_calls st) + k) with (ls_calls st + S k) by lia.
    + by replace (S (ls_calls st) + k) with (ls_calls st + S k) by lia.
    + cbn [ls_calls ls_breaker] in *.
      exists st'. split_and!; try done; lia.
Qed.

End Loop.

(** *** Calls of the executor *)

Section Calls.
Context {A : Type}.
Variable operation : nat → op_result A.
Variable rnd : nat → Q.
Variable clock : Clock.

Lemma execute_refused (h h' : ErrorHandler) (provider : string)
    (cb : CircuitBreaker) (error : exn) :
  get_circuit_breaker h provider = (cb, h') →
  can_execute (t_check clock) cb = inl error →
  execute_with_retry operation rnd clock h provider
  = mkRun (Raise error) 0 [] h'.
Proof.
  intros Hget Hcan. unfold execute_with_retry. by rewrite Hget, Hcan.
Qed.

Lemma can_execute_count (now : Z) (cb cb' : CircuitBreaker) (allowed : bool) :
  can_execute now cb = inr (allowed, cb') →
  failure_count cb' = failure_count cb.
Proof.
  unfold can_execute. intros Hcan.
  destruct (state cb); [by simplify_eq| |by simplify_eq].
  destruct (last_failure_time cb); [|done].
  destruct (_ <? _)%Z; by simplify_eq.
Qed.

(** X5: whatever the operation does, one call of the executor awaits it at
    most 3 times and sleeps at most once per await; with draws of
    [random.random()] in [[0, 1)], no sleep is longer than 8 seconds, so
    [max_delay] never decides a delay. *)
Theorem execute_with_retry_bounds (h : ErrorHandler) (provider : string) :
  unit_draws rnd →
  let r := execute_with_retry operation rnd clock h provider in
  (run_calls r <= 3)%nat ∧
  (length (run_sleeps r) <= run_calls r)%nat ∧
  Forall (λ d, (0 <= d)%Q ∧ (d <= 8)%Q) (run_sleeps r).
Proof.
  intros Hrnd r. subst r.
  destruct (get_circuit_breaker h provider) as [cb h'] eqn:Hget.
  destruct (can_execute (t_check clock) cb) as [err|[[] cb']] eqn:Hcan.
  - rewrite (execute_refused h h' provider cb err Hget Hcan). simpl.
    split_and!; [lia|lia|done].
  - rewrite (execute_permitted operation rnd clock h h' provider cb cb'
               Hget Hcan).
    destruct (retry_loop operation rnd clock attempt_range
                (mkLoop cb' None 0 [])) as [ex st] eqn:Hloop.
    pose proof (retry_loop_counts operation rnd clock _ _ _ _ Hloop)
      as Hcounts.
    assert (Hbound : Forall (λ d, (0 <= d)%Q ∧ (d <= 8)%Q) (ls_sleeps st)).
    { apply (retry_loop_sleeps operation rnd clock attempt_range
               (mkLoop cb' None 0 []) st ex Hrnd);
        [|by constructor|exact Hloop].
      rewrite attempt_range_eq. repeat constructor. }
    rewrite attempt_range_eq in Hcounts. simpl in Hcounts.
    destruct ex; simpl; (split_and!; [lia|lia|done]).
  - rewrite (execute_blocked operation rnd clock h h' provider cb cb'
               Hget Hcan). simpl. split_and!; [lia|lia|done].
Qed.

(** X6: a call returns [r] only in this way: an await among the first three
    returned [r], every await before it raised an error whose kind allowed
    more retries than had been made, the operation was awaited once more
    than the executor slept, and the breaker of the provider is closed with
    a count of 0 afterwards. *)
Theorem execute_with_retry_return (h : ErrorHandler) (provider : string)
    (r : A) :
  run_outcome (execute_with_retry operation rnd clock h provider)
  = Return r →
  ∃ k cb,
    k < 3 ∧
    operation k = OpOk r ∧
    (∀ j, j < k → within_budget operation j) ∧
    run_calls (execute_with_retry operation rnd clock h provider) = S k ∧
    length (run_sleeps (execute_with_retry operation rnd clock h provider))
    = k ∧
    circuit_breakers
      (run_handler (execute_with_retry operation rnd clock h provider))
      !! provider = Some cb ∧
    state cb = Closed ∧ failure_count cb = 0%Z.
Proof.
  destruct (get_circuit_breaker h provider) as [cb h'] eqn:Hget.
  destruct (can_execute (t_check clock) cb) as [err|[[] cb']] eqn:Hcan.
  - by rewrite (execute_refused h h' provider cb err Hget Hcan).
  - rewrite (execute_permitted operation rnd clock h h' provider cb cb'
               Hget Hcan).
    destruct (retry_loop operation rnd clock attempt_range
                (mkLoop cb' None 0 [])) as [ex st] eqn:Hloop.
    destruct ex as [r'| |]; simpl; [|done..]. intros [= ->].
    pose proof (retry_loop_counts operation rnd clock _ _ _ _ Hloop)
      as Hcounts.
    apply (retry_loop_return operation rnd clock 3 (mkLoop cb' None 0 []))
      in Hloop as (k & Hk & Hok & Hbefore & Hcalls & Hcb).
    simpl in *. exists k, (record_success cb').
    split_and!; try done; try lia.
    by rewrite Hcb, lookup_insert_eq.
  - by rewrite (execute_blocked operation rnd clock h h' provider cb cb'
                  Hget Hcan).
Qed.

(** X7: when the breaker lets the call through, an await among the first
    three returns [r] and every await before it fails with its budget left,
    the call returns [r]. *)
Theorem execute_with_retry_retries_until_success (h : ErrorHandler)
    (provider : string) (k : nat) (r : A) :
  permitted h provider clock →
  k < 3 →
  operation k = OpOk r →
  (∀ j, j < k → within_budget operation j) →
  run_outcome (execute_with_retry operation rnd clock h provider) = Return r.
Proof.
  intros [cb' Hcan] Hk Hok Hbefore.
  destruct (get_circuit_breaker h provider) as [cb h'] eqn:Hget.
  rewrite (execute_permitted operation rnd clock h h' provider cb cb'
             Hget Hcan).
  destruct (retry_loop_succeeds operation rnd clock 3 k
              (mkLoop cb' None 0 []) r Hk Hok Hbefore) as [st' Hloop].
  change (seq (ls_calls (mkLoop cb' None 0 [])) 3) with attempt_range
    in Hloop.
  by rewrite Hloop.
Qed.

(** X8: when the breaker lets the call through and all three awaits fail
    with their budget left (kinds timeout, rate_limit or network_error), the
    executor sleeps after the third await too, then raises the third error;
    the breaker counts one failure. *)
Theorem execute_with_retry_range_used_up (h : ErrorHandler)
    (provider : string) (error : exn) :
  permitted h provider clock →
  (∀ j, j < 3 → within_budget operation j) →
  operation 2 = OpRaise error →
  let r := execute_with_retry operation rnd clock h provider in
  run_outcome r = Raise error ∧
  run_calls r = 3 ∧
  length (run_sleeps r) = 3 ∧
  ∃ cb, circuit_breakers (run_handler r) !! provider = Some cb ∧
        failure_count cb
        = (failure_count (get_circuit_breaker h provider).1 + 1)%Z.
Proof.
  intros [cb' Hcan] Hall Hlast r. subst r.
  destruct (get_circuit_breaker h provider) as [cb h'] eqn:Hget.
  rewrite (execute_permitted operation rnd clock h h' provider cb cb'
             Hget Hcan).
  destruct (retry_loop_used_up operation rnd clock 3
              (mkLoop cb' None 0 []) Hall)
    as (st' & Hloop & Hcb & Hcalls & Herr).
  change (seq (ls_calls (mkLoop cb' None 0 [])) 3) with attempt_range
    in Hloop.
  pose proof (retry_loop_counts operation rnd clock _ _ _ _ Hloop)
    as Hcounts.
  rewrite Hloop. rewrite attempt_range_eq in Hcounts. simpl in *.
  rewrite (Herr error) by (done || lia).
  split_and!; try done; try lia.
  eexists. rewrite lookup_insert_eq. split; [done|].
  rewrite Hcb. simpl. by rewrite (can_execute_count _ _ _ _ Hcan).
Qed.

(** X9: when the breaker lets the call through and an await fails with its
    budget used up (the kind's [max_retries] is at most the number of
    retries made), the error is raised without a sleep after it, and the
    breaker counts two failures for the one call: one before [break], one
    after the loop. *)
Theorem execute_with_retry_break_counts_twice (h : ErrorHandler)
    (provider : string) (k : nat) (error : exn) :
  permitted h provider clock →
  k < 3 →
  (∀ j, j < k → within_budget operation j) →
  operation k = OpRaise error →
  (max_retries (retry_strategies (classify_error error None))
   <= Z.of_nat k)%Z →
  let r := execute_with_retry operation rnd clock h provider in
  run_outcome r = Raise error ∧
  run_calls r = S k ∧
  length (run_sleeps r) = k ∧
  ∃ cb, circuit_breakers (run_handler r) !! provider = Some cb ∧
        failure_count cb
        = (failure_count (get_circuit_breaker h provider).1 + 2)%Z.
Proof.
  intros [cb' Hcan] Hk Hbefore He Hmax r. subst r.
  destruct (get_circuit_breaker h provider) as [cb h'] eqn:Hget.
  rewrite (execute_permitted operation rnd clock h h' provider cb cb'
             Hget Hcan).
  destruct (retry_loop_breaks operation rnd clock 3 k
              (mkLoop cb' None 0 []) error Hk Hbefore He Hmax)
    as (st' & Hloop & Hcb & Hcalls & Herr).
  change (seq (ls_calls (mkLoop cb' None 0 [])) 3) with attempt_range
    in Hloop.
  pose proof (retry_loop_counts operation rnd clock _ _ _ _ Hloop)
    as Hcounts.
  rewrite Hloop. simpl in *. rewrite Herr.
  split_and!; try done; try lia.
  eexists. rewrite lookup_insert_eq. split; [done|].
  rewrite Hcb. simpl. rewrite (can_execute_count _ _ _ _ Hcan). lia.
Qed.

(** X10: a call for one provider leaves the breakers of the other providers
    as they are. *)
Theorem execute_with_retry_other_providers (h : ErrorHandler)
    (provider other : string) :
  other ≠ provider →
  circuit_breakers
    (run_handler (execute_with_retry operation rnd clock h provider))
    !! other
  = circuit_breakers h !! other.
Proof.
  intros Hne.
  assert (Hget' : circuit_breakers (get_circuit_breaker h provider).2
                    !! other = circuit_breakers h !! other).
  { unfold get_circuit_breaker.
    destruct (circuit_breakers h !! provider); simpl; [done|].
    by rewrite lookup_insert_ne. }
  destruct (get_circuit_breaker h provider) as [cb h'] eqn:Hget.
  simpl in Hget'.
  destruct (can_execute (t_check clock) cb) as [err|[[] cb']] eqn:Hcan.
  - by rewrite (execute_refused h h' provider cb err Hget Hcan).
  - rewrite (execute_permitted operation rnd clock h h' provider cb cb'
               Hget Hcan).
    destruct (retry_loop _ _ _ _ _) as [[r| |] st]; simpl;
      by rewrite lookup_insert_ne.
  - rewrite (execute_blocked operation rnd clock h h' provider cb cb'
               Hget Hcan). simpl. by rewrite lookup_insert_ne.
Qed.

(** X11: after any call for a provider, [get_provider_health] lists that
    provider; it is reported healthy exactly when its breaker is closed, and
    after a call that returned it is healthy, closed, with no failure
    counted. *)
Theorem provider_health_after_call (h : ErrorHandler) (provider : string) :
  let r := execute_with_retry operation rnd clock h provider in
  ∃ cb ph,
    circuit_breakers (run_handler r) !! provider = Some cb ∧
    get_provider_health (run_handler r) !! provider = Some ph ∧
    ph_failure_count ph = failure_count cb ∧
    (ph_healthy ph = true ↔ state cb = Closed) ∧
    (∀ result, run_outcome r = Return result →
       ph_healthy ph = true ∧ ph_state ph = "closed" ∧
       ph_failure_count ph = 0%Z).
Proof.
  intros r.
  assert (Hcb : ∃ cb, circuit_breakers (run_handler r) !! provider = Some cb
                  ∧ (∀ result, run_outcome r = Return result →
                       state cb = Closed ∧ failure_count cb = 0%Z)).
  { subst r.
    pose proof (get_circuit_breaker_lookup h provider) as Hlook.
    destruct (get_circuit_breaker h provider) as [cb h'] eqn:Hget.
    simpl in Hlook.
    destruct (can_execute (t_check clock) cb) as [err|[[] cb']] eqn:Hcan.
    - rewrite (execute_refused h h' provider cb err Hget Hcan). simpl.
      by exists cb.
    - rewrite (execute_permitted operation rnd clock h h' provider cb cb'
                 Hget Hcan).
      destruct (retry_loop _ _ _ _ _) as [[res| |] st] eqn:Hloop; simpl;
        rewrite lookup_insert_eq; eexists; (split; [done|]); try done.
      intros result _.
      apply (retry_loop_return operation rnd clock 3
               (mkLoop cb' None 0 [])) in Hloop
        as (k & _ & _ & _ & _ & ->).
      done.
    - rewrite (execute_blocked operation rnd clock h h' provider cb cb'
                 Hget Hcan). simpl. rewrite lookup_insert_eq.
      by eexists. }
  destruct Hcb as (cb & Hlook & Hret). exists cb, (health_of cb).
  unfold get_provider_health. rewrite lookup_fmap, Hlook. simpl.
  split_and!; [done|done|done| |].
  - by destruct (state cb).
  - intros result Hres. destruct (Hret result Hres) as [Hst Hcount].
    by rewrite Hst, Hcount.
Qed.

End Calls.

Lemma execute_with_retry_bounds_witness :
  (run_calls (execute_with_retry (failing "Rate limit exceeded")
               no_jitter_draws (mkClock 0 0 0) ErrorHandler_new "P") <= 3)%nat.
Proof.
  apply (execute_with_retry_bounds (failing "Rate limit exceeded")
           no_jitter_draws (mkClock 0 0 0) ErrorHandler_new "P").
  intros n. by split.
Defined.

Lemma execute_with_retry_return_witness :
  ∃ k cb,
    k < 3 ∧
    third_time_lucky "timeout" k = OpOk "done" ∧
    (∀ j, j < k → within_budget (third_time_lucky "timeout") j) ∧
    run_calls (execute_with_retry (third_time_lucky "timeout")
                 no_jitter_draws (mkClock 0 0 0) ErrorHandler_new "P")
    = S k ∧
    length (run_sleeps (execute_with_retry (third_time_lucky "timeout")
                 no_jitter_draws (mkClock 0 0 0) ErrorHandler_new "P"))
    = k ∧
    circuit_breakers
      (run_handler (execute_with_retry (third_time_lucky "timeout")
                 no_jitter_draws (mkClock 0 0 0) ErrorHandler_new "P"))
      !! "P" = Some cb ∧
    state cb = Closed ∧ failure_count cb = 0%Z.
Proof.
  by apply (execute_with_retry_return (third_time_lucky "timeout")
              no_jitter_draws (mkClock 0 0 0) ErrorHandler_new "P" "done").
Defined.

Lemma execute_with_retry_retries_until_success_witness :
  run_outcome (execute_with_retry (third_time_lucky "timeout")
                 no_jitter_draws (mkClock 0 0 0) ErrorHandler_new "P")
  = Return "done".
Proof.
  apply (execute_with_retry_retries_until_success
           (third_time_lucky "timeout") no_jitter_draws (mkClock 0 0 0)
           ErrorHandler_new "P" 2 "done").
  - by eexists.
  - lia.
  - reflexivity.
  - intros j Hj. assert (j = 0 ∨ j = 1) as [-> | ->] by lia;
      by eexists.
Defined.

Lemma execute_with_retry_range_used_up_witness :
  length (run_sleeps (execute_with_retry (failing "Rate limit exceeded")
                        no_jitter_draws (mkClock 0 0 0) ErrorHandler_new "P"))
  = 3.
Proof.
  apply (execute_with_retry_range_used_up (failing "Rate limit exceeded")
           no_jitter_draws (mkClock 0 0 0) ErrorHandler_new "P"
           (Exn "Exception" "Rate limit exceeded")).
  - by eexists.
  - intros j Hj. eexists. split; [reflexivity|].
    change (Z.of_nat j < 5)%Z. lia.
  - reflexivity.
Defined.

Lemma execute_with_retry_break_counts_twice_witness :
  ∃ cb,
    circuit_breakers
      (run_handler (execute_with_retry (failing "401 Unauthorized")
                      no_jitter_draws (mkClock 0 0 0) ErrorHandler_new "P"))
      !! "P" = Some cb ∧
    failure_count cb = 2%Z.
Proof.
  apply (execute_with_retry_break_counts_twice (failing "401 Unauthorized")
           no_jitter_draws (mkClock 0 0 0) ErrorHandler_new "P" 0
           (Exn "Exception" "401 Unauthorized")).
  - by eexists.
  - lia.
  - intros j Hj. lia.
  - reflexivity.
  - by vm_compute.
Defined.

Lemma execute_with_retry_other_providers_witness :
  circuit_breakers
    (run_handler (execute_with_retry (failing "401 Unauthorized")
                    no_jitter_draws (mkClock 0 0 0) ErrorHandler_new "P"))
    !! "Q" = None.
Proof.
  by apply (execute_with_retry_other_providers (failing "401 Unauthorized")
              no_jitter_draws (mkClock 0 0 0) ErrorHandler_new "P" "Q").
Defined.

Lemma breaker_calls_never_raise_witness :
  ∃ cb,
    call_breaker_seq
      [RecordFailure 1; RecordFailure 2; RecordFailure 3; RecordFailure 4;
       RecordFailure 5; CanExecute 6; CanExecute 70000000; RecordSuccess]
      CircuitBreaker_new = inr cb ∧
    (0 <= failure_count cb)%Z ∧
    (state cb = Closed → (failure_count cb < 5)%Z) ∧
    (state cb ≠ Closed →
       (5 <= failure_count cb)%Z ∧ is_Some (last_failure_time cb)).
Proof.
  apply (breaker_calls_never_raise
           [RecordFailure 1; RecordFailure 2; RecordFailure 3;
            RecordFailure 4; RecordFailure 5; CanExecute 6;
            CanExecute 70000000; RecordSuccess]).
Defined.

Lemma provider_health_after_call_witness :
  ∃ cb ph,
    circuit_breakers
      (run_handler (execute_with_retry (third_time_lucky "timeout")
                      no_jitter_draws (mkClock 0 0 0) ErrorHandler_new "P"))
      !! "P" = Some cb ∧
    get_provider_health
      (run_handler (execute_with_retry (third_time_lucky "timeout")
                      no_jitter_draws (mkClock 0 0 0) ErrorHandler_new "P"))
      !! "P" = Some ph ∧
    ph_failure_count ph = failure_count cb ∧
    (ph_healthy ph = true ↔ state cb = Closed) ∧
    (∀ result,
       run_outcome (execute_with_retry (third_time_lucky "timeout")
                      no_jitter_draws (mkClock 0 0 0) ErrorHandler_new "P")
       = Return result →
       ph_healthy ph = true ∧ ph_state ph = "closed" ∧
       ph_failure_count ph = 0%Z).
Proof.
  apply (provider_health_after_call (third_time_lucky "timeout")
           no_jitter_draws (mkClock 0 0 0) ErrorHandler_new "P").
Defined.

End ErrorHandlerMore.

(** ** Error events and the adapter wrapper *)

Module ErrorEventsMore.
Import ErrorHandler ErrorHandlerSpec ErrorEvents.

Lemma value_inj (K K' : ErrorType) : value K = value K' → K = K'.
Proof. by destruct K, K'. Qed.

Lemma retryable_kind (K : ErrorType) :
  (0 <? max_retries (retry_strategies K))%Z = false ↔
  K = AUTH_ERROR ∨ K = VALIDATION_ERROR.
Proof. destruct K; simpl; naive_solver. Qed.

(** X12: the event of [create_error_event] is an error event of the pane
    given; its data hold the text of the error, the name of the kind that
    [classify_error] gives for the error and the status code, and a
    [retryable] flag that is false exactly for auth_error and
    validation_error; the name determines the kind, and the serialized data
    have the members [message], [code] and [retryable]. *)
Theorem create_error_event_fields (now : Z) (error : exn) (pane : string)
    (status_code : option Z) :
  let event := create_error_event now error pane status_code in
  let K := classify_error error status_code in
  Models.type event = Models.T_error ∧
  Models.pane_id event = pane ∧
  (∃ d, Models.data event = Models.D_error d ∧
        Models.ErrorData.message d = exn_str error ∧
        Models.ErrorData.code d = Some (value K) ∧
        (Models.ErrorData.retryable d = false ↔
         K = AUTH_ERROR ∨ K = VALIDATION_ERROR)) ∧
  (∀ K', value K' = value K → K' = K) ∧
  Models.data_keys event = ["message"; "code"; "retryable"].
Proof.
  intros event K. split_and!; try done.
  - eexists. split_and!; try done. apply retryable_kind.
  - intros K'. apply value_inj.
Qed.

Lemma create_error_event_fields_witness :
  ∃ d,
    Models.data (create_error_event 9 (Exn "Exception" "quota") "pane-1"
                   (Some 429%Z)) = Models.D_error d ∧
    Models.ErrorData.message d = "quota" ∧
    Models.ErrorData.code d = Some "rate_limit" ∧
    (Models.ErrorData.retryable d = false ↔
     RATE_LIMIT = AUTH_ERROR ∨ RATE_LIMIT = VALIDATION_ERROR).
Proof.
  exact (proj1 (proj2 (proj2
           (create_error_event_fields 9 (Exn "Exception" "quota") "pane-1"
              (Some 429%Z))))).
Defined.

End ErrorEventsMore.

Module LLMAdapterSpec.
Import ErrorHandler ErrorHandlerSpec ErrorEvents ErrorEventsMore LLMAdapter.

(** X13: [stream_with_error_handling] passes on the events of the stream in
    their order; when the stream ends with an exception it adds one event
    after them, an error event of the pane that holds the text of the
    exception, whose code is never service_error or validation_error and
    whose [retryable] flag is false exactly when the message is classified
    auth_error; when the stream ends without, it adds nothing. *)
Theorem stream_with_error_handling_events (now : Z) (pane : string)
    (stream : stream_run) :
  let out := stream_with_error_handling now pane stream in
  (raised stream = None → out = yielded stream) ∧
  (∀ e, raised stream = Some e →
     ∃ d, out = (yielded stream
                 ++ [Models.mkStreamEvent Models.T_error pane
                       (Models.D_error d) now])%list ∧
          Models.ErrorData.message d = exn_str e ∧
          Models.ErrorData.code d ≠ Some "service_error" ∧
          Models.ErrorData.code d ≠ Some "validation_error" ∧
          (Models.ErrorData.retryable d = false ↔
           classify_error e None = AUTH_ERROR)).
Proof.
  intros out. subst out. unfold stream_with_error_handling. split.
  - by intros ->.
  - intros e ->. eexists. split; [reflexivity|]. simpl.
    destruct (classify_error_by_message e) as [Hservice Hvalidation].
    split_and!; [done| | |].
    + intros [= HK]. by apply (value_inj _ SERVICE_ERROR) in HK.
    + intros [= HK]. by apply (value_inj _ VALIDATION_ERROR) in HK.
    + rewrite retryable_kind. split; [by intros [?|?]|by left].
Qed.

Lemma stream_with_error_handling_events_witness :
  ∃ d,
    stream_with_error_handling 9 "pane-1"
      (mkStreamRun [Models.token_event]
                   (Some (Exn "Exception" "Invalid API key: unauthorized")))
    = ([Models.token_event]
       ++ [Models.mkStreamEvent Models.T_error "pane-1"
             (Models.D_error d) 9])%list ∧
    Models.ErrorData.message d = "Invalid API key: unauthorized" ∧
    Models.ErrorData.code d ≠ Some "service_error" ∧
    Models.ErrorData.code d ≠ Some "validation_error" ∧
    (Models.ErrorData.retryable d = false ↔
     classify_error (Exn "Exception" "Invalid API key: unauthorized") None
     = AUTH_ERROR).
Proof.
  exact (proj2 (stream_with_error_handling_events 9 "pane-1"
                  (mkStreamRun [Models.token_event]
                     (Some (Exn "Exception"
                                "Invalid API key: unauthorized"))))
           (Exn "Exception" "Invalid API key: unauthorized") eq_refl).
Defined.

End LLMAdapterSpec.

(** ** The other operations of the connection manager *)

Module WebSocketManagerMore.
Import WebSocketManager WebSocketManagerSpec.

Implicit Types (m : EnhancedConnectionManager) (c s : string).

(** *** Removing a list of connections *)

Lemma disconnect_all_consistent (reason : string) (failed : list string) m :
  consistent m →
  consistent (foldl (λ m c, disconnect c reason m) m failed).
Proof.
  revert m. induction failed as [|c failed IH]; intros m Hm; simpl; [done|].
  by apply IH, disconnect_consistent.
Qed.

Lemma disconnect_all_nonempty (reason : string) (failed : list string) m :
  index_nonempty m →
  index_nonempty (foldl (λ m c, disconnect c reason m) m failed).
Proof.
  revert m. induction failed as [|c failed IH]; intros m Hm; simpl; [done|].
  by apply IH, disconnect_nonempty.
Qed.

Lemma disconnect_all_connections (reason : string) (failed : list string)
    m c :
  connections (foldl (λ m c, disconnect c reason m) m failed) !! c
  = if decide (c ∈ failed) then None else connections m !! c.
Proof.
  revert m. induction failed as [|c0 failed IH]; intros m; cbn [foldl].
  - case_decide; [set_solver|done].
  - rewrite IH, disconnect_connections.
    destruct (decide (c = c0)) as [->|Hne].
    + rewrite lookup_delete_eq. repeat case_decide; set_solver.
    + rewrite lookup_delete_ne by done. repeat case_decide; set_solver.
Qed.

(** In a consistent manager the index follows the table. *)
Lemma consistent_absent m c :
  consistent m → connections m !! c = None → ∀ s, ¬ indexed m s c.
Proof.
  intros [Hidx _] Hnone s Hin. destruct (Hidx s c Hin). congruence.
Qed.

Lemma consistent_present m c (info : ConnectionInfo) :
  consistent m → connections m !! c = Some info →
  indexed m (session_id info) c.
Proof. intros [_ Htab] Hc. by apply (Htab c info Hc). Qed.

Lemma with_connections_consistent m (table : gmap string ConnectionInfo) :
  (∀ c, session_id <$> table !! c = session_id <$> connections m !! c) →
  consistent m → consistent (with_connections table m).
Proof. apply consistent_same_sessions. Qed.

(** Writing the record of a connection, its session kept. *)
Lemma update_consistent m c (info info' : ConnectionInfo) :
  connections m !! c = Some info →
  session_id info' = session_id info →
  consistent m →
  consistent (with_connections (<[c := info']> (connections m)) m).
Proof.
  intros Hc Hsess Hm. apply with_connections_consistent; [|done].
  intros c'. destruct (decide (c' = c)) as [->|Hne].
  - rewrite lookup_insert_eq, Hc. simpl. by rewrite Hsess.
  - by rewrite lookup_insert_ne.
Qed.

(** *** [send_to_connection] *)

Lemma send_to_connection_consistent
    (send_text : WebSocket → Models.json → send_result) c
    (data : Models.json) m :
  consistent m → consistent (send_to_connection send_text c data m).2.
Proof.
  intros Hm. unfold send_to_connection.
  destruct (connections m !! c) as [info|] eqn:Hc; [|done].
  destruct (send_text (websocket info) data); simpl.
  - by apply (update_consistent m c info).
  - destruct (_ <=? _)%Z; simpl;
      [apply disconnect_consistent|]; by apply (update_consistent m c info).
  - destruct (_ <=? _)%Z; simpl;
      [apply disconnect_consistent|]; by apply (update_consistent m c info).
Qed.

Lemma send_to_connection_nonempty
    (send_text : WebSocket → Models.json → send_result) c
    (data : Models.json) m :
  index_nonempty m → index_nonempty (send_to_connection send_text c data m).2.
Proof.
  intros Hm. unfold send_to_connection.
  destruct (connections m !! c) as [info|] eqn:Hc; [|done].
  destruct (send_text (websocket info) data); simpl; [done|..];
    (destruct (_ <=? _)%Z; simpl; [by apply disconnect_nonempty|done]).
Qed.

(** X14: [send_to_connection] on a consistent manager.  For an id that is
    not in the table it returns false and changes nothing.  A send that
    succeeds returns true and resets the counter of failed sends.  A send
    that raises, a [WebSocketDisconnect] too, returns false and adds one to
    the counter; the connection is removed from the table and the index when
    the counter reaches 3, and stays registered below that. *)
Theorem send_to_connection_effect
    (send_text : WebSocket → Models.json → send_result) c
    (data : Models.json) m :
  consistent m →
  let r := send_to_connection send_text c data m in
  match connections m !! c with
  | None => r = (false, m)
  | Some info =>
      match send_text (websocket info) data with
      | SendOk =>
          r.1 = true ∧
          connections r.2 !! c = Some (set_failed_sends 0 info) ∧
          indexed r.2 (session_id info) c
      | _ =>
          r.1 = false ∧
          if (max_failed_sends <=? failed_sends info + 1)%Z
          then connections r.2 !! c = None ∧ ∀ s, ¬ indexed r.2 s c
          else connections r.2 !! c
               = Some (set_failed_sends (failed_sends info + 1) info) ∧
               indexed r.2 (session_id info) c
      end
  end.
Proof.
  intros Hm r.
  pose proof (send_to_connection_consistent send_text c data m Hm) as Hr.
  fold r in Hr. subst r. unfold send_to_connection in *.
  destruct (connections m !! c) as [info|] eqn:Hc; [|done].
  destruct (send_text (websocket info) data) as [| |e]; simpl in *.
  - split; [done|]. split; [by rewrite lookup_insert_eq|].
    apply (consistent_present _ c (set_failed_sends 0 info) Hr). simpl.
    by rewrite lookup_insert_eq.
  - destruct (max_failed_sends <=? failed_sends info + 1)%Z eqn:Hle;
      simpl in *; (split; [done|]).
    + assert (Hgone : connections (disconnect c "send_failure"
                (with_connections (<[c := set_failed_sends
                   (failed_sends info + 1) info]> (connections m)) m))
                !! c = None).
      { rewrite disconnect_connections. apply lookup_delete_eq. }
      split; [done|]. by apply consistent_absent.
    + split; [by rewrite lookup_insert_eq|].
      apply (consistent_present _ c
               (set_failed_sends (failed_sends info + 1) info) Hr). simpl.
      by rewrite lookup_insert_eq.
  - destruct (max_failed_sends <=? failed_sends info + 1)%Z eqn:Hle;
      simpl in *; (split; [done|]).
    + assert (Hgone : connections (disconnect c "send_failure"
                (with_connections (<[c := set_failed_sends
                   (failed_sends info + 1) info]> (connections m)) m))
                !! c = None).
      { rewrite disconnect_connections. apply lookup_delete_eq. }
      split; [done|]. by apply consistent_absent.
    + split; [by rewrite lookup_insert_eq|].
      apply (consistent_present _ c
               (set_failed_sends (failed_sends info + 1) info) Hr). simpl.
      by rewrite lookup_insert_eq.
Qed.

Lemma send_to_connection_effect_witness :
  (send_to_connection peer_gone "c1" (ping_data 0) one_connection).1 = false ∧
  connections
    (send_to_connection peer_gone "c1" (ping_data 0) one_connection).2
    !! "c1" = Some (mkConnectionInfo 1%N "S" 0 0 1 true) ∧
  indexed (send_to_connection peer_gone "c1" (ping_data 0) one_connection).2
          "S" "c1".
Proof.
  apply (send_to_connection_effect peer_gone "c1" (ping_data 0)
           one_connection).
  apply connect_consistent; [apply consistent_new|reflexivity].
Defined.

(** *** [ping_connection] *)

Lemma ping_connection_consistent
    (send_text : WebSocket → Models.json → send_result)
    (now_sent now_ping : Z) c m :
  consistent m →
  consistent (ping_connection send_text now_sent now_ping c m).2.
Proof.
  intros Hm. unfold ping_connection.
  pose proof (send_to_connection_consistent send_text c
                (ping_data now_sent) m Hm) as Hsent.
  destruct (send_to_connection send_text c (ping_data now_sent) m)
    as [[] m1]; simpl in *; [|done].
  destruct (connections m1 !! c) as [info|] eqn:Hc; [|done]. simpl.
  by apply (update_consistent m1 c info).
Qed.

Lemma ping_connection_nonempty
    (send_text : WebSocket → Models.json → send_result)
    (now_sent now_ping : Z) c m :
  index_nonempty m →
  index_nonempty (ping_connection send_text now_sent now_ping c m).2.
Proof.
  intros Hm. unfold ping_connection.
  pose proof (send_to_connection_nonempty send_text c
                (ping_data now_sent) m Hm) as Hsent.
  destruct (send_to_connection send_text c (ping_data now_sent) m)
    as [[] m1]; simpl in *; [|done].
  by destruct (connections m1 !! c).
Qed.

(** *** [broadcast_to_all] *)

Section Broadcast.
Variable send_text : WebSocket → Models.json → send_result.
Variable data : Models.json.

Lemma broadcast_loop (l : list (string * ConnectionInfo))
    (acc : Z * list string) :
  foldl (broadcast_one send_text data) acc l
  = ((acc.1 + Z.of_nat (length (filter (sent_ok send_text data) l)))%Z,
     (acc.2 ++ (filter (λ item, ¬ sent_ok send_text data item) l).*1)%list).
Proof.
  revert acc. induction l as [|item l IH]; intros [n failed]; simpl.
  - by rewrite Z.add_0_r, app_nil_r.
  - rewrite IH, !filter_cons. unfold broadcast_one.
    destruct (decide (sent_ok send_text data item)) as [Hok|Hnot].
    + rewrite decide_False by tauto. unfold sent_ok in Hok. rewrite Hok.
      simpl. f_equal. lia.
    + rewrite decide_True by done. unfold sent_ok in Hnot.
      destruct (send_text (websocket item.2) data); [done|..];
        simpl; by rewrite <- app_assoc.
Qed.

Lemma broadcast_to_all_connections m c :
  connections (broadcast_to_all send_text data m).2 !! c
  = filter (sent_ok send_text data) (connections m) !! c.
Proof.
  unfold broadcast_to_all. rewrite broadcast_loop. simpl.
  rewrite disconnect_all_connections.
  destruct (connections m !! c) as [info|] eqn:Hc.
  - destruct (decide (sent_ok send_text data (c, info))) as [Hok|Hnot].
    + rewrite decide_False.
      * symmetry. by apply map_lookup_filter_Some.
      * rewrite list_elem_of_fmap. intros ([c' info'] & -> & Hin).
        apply list_elem_of_filter in Hin as [Hnot Hin].
        apply elem_of_map_to_list in Hin. simpl in *. by simplify_eq.
    + rewrite decide_True.
      * symmetry. apply map_lookup_filter_None. right.
        intros info' ?. by simplify_eq.
      * rewrite list_elem_of_fmap. exists (c, info). split; [done|].
        apply list_elem_of_filter. split; [done|].
        by apply elem_of_map_to_list.
  - case_decide; symmetry; apply map_lookup_filter_None; by left.
Qed.

Lemma broadcast_to_all_consistent m :
  consistent m → consistent (broadcast_to_all send_text data m).2.
Proof. intros Hm. by apply disconnect_all_consistent. Qed.

Lemma broadcast_to_all_nonempty m :
  index_nonempty m → index_nonempty (broadcast_to_all send_text data m).2.
Proof. intros Hm. by apply disconnect_all_nonempty. Qed.

(** X15: [broadcast_to_all] on a consistent manager keeps, with its record
    as it was, every connection whose send succeeded, removes every other
    one from the table and from the index, and returns the number of
    connections that are left in the table. *)
Theorem broadcast_to_all_effect m :
  consistent m →
  let r := broadcast_to_all send_text data m in
  r.1 = Z.of_nat (size (connections r.2)) ∧
  ∀ c info,
    connections m !! c = Some info →
    match send_text (websocket info) data with
    | SendOk =>
        connections r.2 !! c = Some info ∧ indexed r.2 (session_id info) c
    | _ => connections r.2 !! c = None ∧ ∀ s, ¬ indexed r.2 s c
    end.
Proof.
  intros Hm r.
  pose proof (broadcast_to_all_consistent m Hm) as Hr. fold r in Hr.
  assert (Htable : connections r.2
                   = filter (sent_ok send_text data) (connections m)).
  { apply map_eq. intros c. apply broadcast_to_all_connections. }
  split.
  - rewrite Htable. subst r. unfold broadcast_to_all.
    rewrite broadcast_loop. simpl. rewrite Z.add_0_l. f_equal.
    rewrite <- length_map_to_list, map_filter_alt.
    apply Permutation_length. symmetry. apply map_to_list_to_map.
    apply NoDup_fmap_fst.
    + intros c x y Hx Hy.
      apply list_elem_of_filter in Hx as [_ Hx].
      apply list_elem_of_filter in Hy as [_ Hy].
      apply elem_of_map_to_list in Hx, Hy. congruence.
    + apply NoDup_filter, NoDup_map_to_list.
  - intros c info Hc.
    assert (Hlook : connections r.2 !! c
                    = if decide (sent_ok send_text data (c, info))
                      then Some info else None).
    { rewrite Htable. case_decide.
      - by apply map_lookup_filter_Some.
      - apply map_lookup_filter_None. right. intros ??. by simplify_eq. }
    destruct (decide (sent_ok send_text data (c, info))) as [Hok|Hnot].
    + unfold sent_ok in Hok. simpl in Hok. rewrite Hok.
      split; [done|]. by apply consistent_present.
    + unfold sent_ok in Hnot. simpl in Hnot.
      destruct (send_text (websocket info) data); [done|..];
        (split; [done|]); by apply consistent_absent.
Qed.

End Broadcast.

Lemma broadcast_to_all_effect_witness :
  (broadcast_to_all first_fails (ping_data 0) three_connections).1
  = Z.of_nat (size (connections
       (broadcast_to_all first_fails (ping_data 0) three_connections).2)).
Proof.
  apply (broadcast_to_all_effect first_fails (ping_data 0)
           three_connections).
  repeat (apply connect_consistent; [|reflexivity]).
  apply consistent_new.
Defined.

(** *** The clean-up pass *)

Lemma delete_all_lookup (l : list string) (index : gmap string (gset string))
    s :
  foldl (λ index sid, delete sid index) index l !! s
  = if decide (s ∈ l) then None else index !! s.
Proof.
  revert index. induction l as [|s0 l IH]; intros index; cbn [foldl].
  - case_decide; [set_solver|done].
  - rewrite IH.
    destruct (decide (s = s0)) as [->|Hne].
    + rewrite lookup_delete_eq. repeat case_decide; set_solver.
    + rewrite lookup_delete_ne by done. repeat case_decide; set_solver.
Qed.

Lemma cleanup_pass_lookup m s :
  session_connections (cleanup_pass m) !! s
  = match session_connections m !! s with
    | Some ids => if decide (ids = ∅) then None else Some ids
    | None => None
    end.
Proof.
  unfold cleanup_pass. simpl. rewrite delete_all_lookup.
  destruct (session_connections m !! s) as [ids|] eqn:Hs.
  - destruct (decide (ids = ∅)) as [->|Hne].
    + rewrite decide_True; [done|].
      apply list_elem_of_fmap. exists (s, ∅). split; [done|].
      apply list_elem_of_filter. split; [done|].
      by apply elem_of_map_to_list.
    + rewrite decide_False; [done|].
      rewrite list_elem_of_fmap. intros ([s' ids'] & -> & Hin).
      apply list_elem_of_filter in Hin as [Hempty Hin].
      apply elem_of_map_to_list in Hin. simpl in *. by simplify_eq.
  - by case_decide.
Qed.

Lemma cleanup_pass_nonempty m : index_nonempty (cleanup_pass m).
Proof.
  intros s ids. rewrite cleanup_pass_lookup.
  destruct (session_connections m !! s) as [ids'|]; [|done].
  case_decide; [done|]. by intros [= <-].
Qed.

(** X16: one pass of the clean-up loop deletes the index entries whose set
    is empty and nothing else; on a manager whose index has no empty entry,
    as every manager that the operations produce, it changes nothing. *)
Theorem cleanup_pass_effect m :
  connections (cleanup_pass m) = connections m ∧
  index_nonempty (cleanup_pass m) ∧
  (∀ s ids, ids ≠ ∅ →
     (session_connections (cleanup_pass m) !! s = Some ids ↔
      session_connections m !! s = Some ids)) ∧
  (index_nonempty m → cleanup_pass m = m).
Proof.
  split_and!.
  - done.
  - apply cleanup_pass_nonempty.
  - intros s ids Hne. rewrite cleanup_pass_lookup.
    destruct (session_connections m !! s) as [ids'|]; [|done].
    case_decide; naive_solver.
  - intros Hm.
    assert (session_connections (cleanup_pass m) = session_connections m)
      as Hidx.
    { apply map_eq. intros s. rewrite cleanup_pass_lookup.
      destruct (session_connections m !! s) as [ids|] eqn:Hs; [|done].
      rewrite decide_False; [done|]. by apply (Hm s). }
    destruct m as [table index flag]. unfold cleanup_pass in *. simpl in *.
    by rewrite Hidx.
Qed.

Lemma cleanup_pass_effect_witness : cleanup_pass one_connection = one_connection.
Proof.
  apply cleanup_pass_effect.
  apply connect_nonempty. intros s ids. simpl. by rewrite lookup_empty.
Defined.

Lemma cleanup_pass_consistent m : consistent m → consistent (cleanup_pass m).
Proof.
  intros Hm. rewrite consistent_iff in Hm. apply consistent_iff.
  intros s c. rewrite <- Hm. unfold indexed.
  setoid_rewrite cleanup_pass_lookup.
  destruct (session_connections m !! s) as [ids|]; [|naive_solver].
  destruct (decide (ids = ∅)) as [->|Hne]; [|naive_solver].
  split; [naive_solver|]. intros (ids & [= <-] & Hin). set_solver.
Qed.

(** X17: [send_to_connection], [broadcast_to_all], [ping_connection] and the
    clean-up pass keep the manager consistent and leave no session of the
    index with an empty set. *)
Theorem background_ops_keep_invariants (o : background_op) m :
  consistent m → index_nonempty m →
  consistent (run_background o m) ∧ index_nonempty (run_background o m).
Proof.
  intros Hm Hne.
  destruct o as [send c data|send data|send now_sent now_ping c|]; simpl.
  - split; [by apply send_to_connection_consistent
           |by apply send_to_connection_nonempty].
  - split; [by apply broadcast_to_all_consistent
           |by apply broadcast_to_all_nonempty].
  - split; [by apply ping_connection_consistent
           |by apply ping_connection_nonempty].
  - split; [by apply cleanup_pass_consistent|apply cleanup_pass_nonempty].
Qed.

Lemma background_ops_keep_invariants_witness :
  consistent (run_background (BroadcastToAll first_fails (ping_data 0))
                three_connections) ∧
  index_nonempty (run_background (BroadcastToAll first_fails (ping_data 0))
                    three_connections).
Proof.
  apply background_ops_keep_invariants.
  - repeat (apply connect_consistent; [|reflexivity]).
    apply consistent_new.
  - repeat apply connect_nonempty. intros s ids. simpl.
    by rewrite lookup_empty.
Defined.

(** *** Counting *)

Lemma session_ids_dom m s :
  consistent m →
  default (∅ : gset string) (session_connections m !! s)
  = dom (filter (λ item, session_id item.2 = s) (connections m)).
Proof.
  intros Hm. rewrite consistent_iff in Hm. apply set_eq. intros c.
  rewrite elem_of_dom. unfold is_Some.
  setoid_rewrite map_lookup_filter_Some. simpl.
  specialize (Hm s c). unfold indexed in Hm.
  destruct (session_connections m !! s) as [ids|]; simpl.
  - split.
    + intros Hin. destruct Hm as [Hm _].
      destruct Hm as (info & ? & ?); [by exists ids|]. by exists info.
    + intros (info & ? & ?). destruct Hm as [_ Hm].
      destruct Hm as (ids' & ? & ?); [by exists info|]. by simplify_eq.
  - split; [set_solver|].
    intros (info & ? & ?). destruct Hm as [_ Hm].
    destruct Hm as (ids' & ? & ?); [by exists info|]. done.
Qed.

(** X18: on a consistent manager [get_session_connections] is the number of
    connections of the table that belong to the session; with no empty index
    entry it is 0 exactly for the sessions that have no entry, those for
    which [send_event] returns false without sending. *)
Theorem get_session_connections_count
    (send_text : WebSocket → Models.json → send_result)
    (event : Models.StreamEvent) m s :
  consistent m → index_nonempty m →
  get_session_connections s m = connections_of_session s m ∧
  (get_session_connections s m = 0 ↔ session_connections m !! s = None) ∧
  (get_session_connections s m = 0 →
   send_event send_text event s m = (false, m)).
Proof.
  intros Hm Hne.
  assert (Hzero : get_session_connections s m = 0
                  ↔ session_connections m !! s = None).
  { unfold get_session_connections.
    destruct (session_connections m !! s) as [ids|] eqn:Hs; simpl.
    - rewrite size_empty_iff. split; [|done].
      intros Hempty. exfalso. apply (Hne s ids Hs). by apply leibniz_equiv.
    - split; [done|]. intros _. by vm_compute. }
  split_and!; [|done|].
  - unfold get_session_connections, connections_of_session.
    by rewrite session_ids_dom, size_dom.
  - intros Hz. apply Hzero in Hz. by apply send_event_no_session.
Qed.

Lemma get_session_connections_count_witness :
  get_session_connections "S" three_connections
  = connections_of_session "S" three_connections.
Proof.
  apply (get_session_connections_count all_sent Models.token_event
           three_connections "S").
  - repeat (apply connect_consistent; [|reflexivity]).
    apply consistent_new.
  - repeat apply connect_nonempty. intros s ids. simpl.
    by rewrite lookup_empty.
Defined.

(** Sets of an index that are not empty, lie in [X] and are pairwise
    disjoint are at most as many as the elements of [X]. *)
Lemma disjoint_entries_size (index : gmap string (gset string))
    (X : gset string) :
  (∀ s ids, index !! s = Some ids → ids ≠ ∅ ∧ ids ⊆ X) →
  (∀ s1 s2 ids1 ids2, s1 ≠ s2 → index !! s1 = Some ids1 →
                      index !! s2 = Some ids2 → ids1 ## ids2) →
  size index <= size X.
Proof.
  revert X. induction index as [|s ids index Hs IH] using map_ind;
    intros X Hin Hdisj.
  - rewrite map_size_empty. lia.
  - rewrite map_size_insert_None by done.
    destruct (Hin s ids) as [Hne Hsub]; [by rewrite lookup_insert_eq|].
    assert (size index <= size (X ∖ ids)) as Hle.
    { apply IH.
      - intros s' ids' Hs'.
        assert (s' ≠ s) as Hneq by (intros ->; congruence).
        destruct (Hin s' ids') as [? ?]; [by rewrite lookup_insert_ne|].
        split; [done|].
        assert (ids' ## ids).
        { apply (Hdisj s' s); [done|by rewrite lookup_insert_ne
                              |by rewrite lookup_insert_eq]. }
        set_solver.
      - intros s1 s2 ids1 ids2 Hneq H1 H2.
        assert (s1 ≠ s) by (intros ->; congruence).
        assert (s2 ≠ s) by (intros ->; congruence).
        apply (Hdisj s1 s2); [done|by rewrite lookup_insert_ne..]. }
    rewrite size_difference in Hle by done.
    assert (size ids ≠ 0).
    { rewrite size_non_empty_iff. intros Hempty. apply Hne.
      by apply leibniz_equiv. }
    pose proof (subseteq_size ids X Hsub). lia.
Qed.

(** X19: the statistics of a consistent manager with no empty index entry:
    there are at most as many active sessions as connections, at most as
    many healthy connections as connections, so that
    [unhealthy_connections] is not negative, and a manager with no
    connection has no active session and an average age of 0. *)
Theorem get_connection_stats_bounds (now : Z) m :
  consistent m → index_nonempty m →
  let stats := get_connection_stats now m in
  active_sessions stats <= total_connections stats ∧
  healthy_connections stats <= total_connections stats ∧
  (0 <= unhealthy_connections stats)%Z ∧
  (total_connections stats = 0 →
     active_sessions stats = 0 ∧ average_connection_age stats = 0%Q).
Proof.
  intros Hm Hne stats. subst stats. unfold get_connection_stats. simpl.
  assert (Hactive : size (session_connections m) <= size (connections m)).
  { rewrite <- (size_dom (D := gset string) (connections m)).
    apply disjoint_entries_size.
    - intros s ids Hs. split; [by apply (Hne s)|].
      intros c Hc. apply elem_of_dom. apply (proj1 Hm s c). by exists ids.
    - intros s1 s2 ids1 ids2 Hneq H1 H2 c Hc1 Hc2.
      rewrite consistent_iff in Hm.
      destruct (proj1 (Hm s1 c)) as (i1 & ? & ?); [by exists ids1|].
      destruct (proj1 (Hm s2 c)) as (i2 & ? & ?); [by exists ids2|].
      congruence. }
  assert (Hhealthy :
    length (filter (λ item : string * ConnectionInfo, healthy item.2 = true)
              (map_to_list (connections m))) <= size (connections m)).
  { rewrite <- length_map_to_list. apply length_filter. }
  split_and!; [done|done|lia|].
  intros Hzero. split; [lia|].
  apply map_size_empty_iff in Hzero.
  unfold calculate_average_connection_age. by rewrite decide_True.
Qed.

Lemma get_connection_stats_bounds_witness :
  active_sessions (get_connection_stats 5 three_connections)
  <= total_connections (get_connection_stats 5 three_connections).
Proof.
  apply (get_connection_stats_bounds 5 three_connections).
  - repeat (apply connect_consistent; [|reflexivity]).
    apply consistent_new.
  - repeat apply connect_nonempty. intros s ids. simpl.
    by rewrite lookup_empty.
Defined.

(** *** [connect] then [disconnect] *)

(** X20: [disconnect] undoes [connect]: on a consistent manager with no
    empty index entry, registering a connection under an id that is not in
    the table and disconnecting it gives back the table and the index;
    disconnecting an id a second time, or an id that is not in the table,
    changes nothing. *)
Theorem connect_disconnect_round_trip c (now1 now2 : Z) (ws : WebSocket)
    (reason : string) s m :
  consistent m → index_nonempty m → connections m !! c = None →
  connections (disconnect c reason (connect None c now1 now2 ws s m).2)
  = connections m ∧
  session_connections
    (disconnect c reason (connect None c now1 now2 ws s m).2)
  = session_connections m ∧
  (∀ m' reason', disconnect c reason' (disconnect c reason m')
                 = disconnect c reason m') ∧
  disconnect c reason m = m.
Proof.
  intros Hm Hne Hfresh.
  assert (Hnotin : ∀ ids, session_connections m !! s = Some ids → c ∉ ids).
  { intros ids Hs Hin. apply (consistent_absent m c Hm Hfresh s).
    by exists ids. }
  split_and!.
  - rewrite disconnect_connections, connect_connections.
    by rewrite delete_insert_id.
  - unfold disconnect. rewrite connect_connections, lookup_insert_eq.
    cbn [session_id]. rewrite connect_index, lookup_insert_eq.
    cbn [session_connections].
    destruct (session_connections m !! s) as [ids|] eqn:Hs; simpl.
    + assert ((ids ∪ {[c]}) ∖ {[c]} = ids) as -> by
        (specialize (Hnotin ids eq_refl); set_solver).
      rewrite decide_False by by apply (Hne s).
      rewrite insert_insert_eq. by apply insert_id.
    + rewrite decide_True by set_solver.
      by rewrite delete_insert_id.
  - intros m' reason'. apply disconnect_absent.
    rewrite disconnect_connections. apply lookup_delete_eq.
  - by apply disconnect_absent.
Qed.

Lemma connect_disconnect_round_trip_witness :
  session_connections
    (disconnect "c9" "client_disconnect"
       (connect None "c9" 7 7 9%N "S" one_connection).2)
  = session_connections one_connection.
Proof.
  apply (connect_disconnect_round_trip "c9" 7 7 9%N "client_disconnect" "S"
           one_connection).
  - apply connect_consistent; [apply consistent_new|reflexivity].
  - apply connect_nonempty. intros s ids. simpl. by rewrite lookup_empty.
  - by vm_compute.
Defined.

(** *** More on [send_event] *)

Section SendEventMore.
Variable send_text : WebSocket → Models.json → send_result.
Variable event : Models.StreamEvent.

Lemma send_one_successful (st : send_state) c :
  (0 < successful_sends (send_one send_text event st c))%Z ↔
  (0 < successful_sends st)%Z ∨
  ((0 <= successful_sends st)%Z ∧
   ∃ info, ss_connections st !! c = Some info ∧
           send_result_of send_text event info = SendOk).
Proof.
  unfold send_one, send_result_of.
  destruct (ss_connections st !! c) as [info|]; simpl; [|naive_solver].
  destruct (send_text _ _) eqn:Hsend; simpl.
  - split; [|intros [?|[? _]]; lia].
    intros ?. destruct (decide (0 < successful_sends st)%Z); [by left|].
    right. split; [lia|]. by exists info.
  - split; [by left|].
    intros [?|(_ & info0 & [= <-] & Hok)]; [done|congruence].
  - destruct (_ <=? _)%Z; simpl; (split; [by left|]);
      (intros [?|(_ & info0 & [= <-] & Hok)]; [done|congruence]).
Qed.

Lemma send_one_successful_mono (st : send_state) c :
  (successful_sends st <= successful_sends (send_one send_text event st c))%Z.
Proof.
  unfold send_one.
  destruct (ss_connections st !! c) as [info|]; simpl; [|lia].
  destruct (send_text _ _); simpl; [lia..|].
  destruct (_ <=? _)%Z; simpl; lia.
Qed.

Lemma send_loop_successful (l : list string) (st : send_state) :
  NoDup l → (0 <= successful_sends st)%Z →
  (0 < successful_sends (foldl (send_one send_text event) st l))%Z ↔
  (0 < successful_sends st)%Z ∨
  ∃ c info, c ∈ l ∧ ss_connections st !! c = Some info ∧
            send_result_of send_text event info = SendOk.
Proof.
  revert st. induction l as [|c0 l IH]; intros st Hnd Hpos; cbn [foldl].
  - set_solver.
  - apply NoDup_cons in Hnd as [Hnotin Hnd].
    pose proof (send_one_successful_mono st c0) as Hmono.
    rewrite IH by (done || lia). rewrite send_one_successful. split.
    + intros [[?|[_ (info & ? & ?)]]|(c & info & Hin & Hc & Hok)].
      * by left.
      * right. exists c0, info. set_solver.
      * right. exists c, info. split; [set_solver|]. split; [|done].
        rewrite send_one_connections in Hc.
        by rewrite decide_False in Hc by set_solver.
    + intros [?|(c & info & Hin & Hc & Hok)]; [by left; left|].
      apply elem_of_cons in Hin as [->|Hin].
      * left. right. split; [done|]. by exists info.
      * right. exists c, info. split; [done|]. split; [|done].
        rewrite send_one_connections.
        by rewrite decide_False by set_solver.
Qed.

(** X21: [send_event] returns true exactly when the session has an index
    entry and the send to one of its connections of the table succeeded; a
    failed send to one connection does not change the result for the
    others. *)
Theorem send_event_returns_success s m :
  (send_event send_text event s m).1 = true ↔
  ∃ ids c info,
    session_connections m !! s = Some ids ∧ c ∈ ids ∧
    connections m !! c = Some info ∧
    send_text (websocket info) (Models.model_dump_json event) = SendOk.
Proof.
  unfold send_event.
  destruct (session_connections m !! s) as [ids|] eqn:Hs; simpl.
  - rewrite Z.ltb_lt.
    rewrite send_loop_successful by (apply NoDup_elements || done). simpl.
    split.
    + intros [?|(c & info & Hin & Hc & Hok)]; [lia|].
      exists ids, c, info. by rewrite <- elem_of_elements.
    + intros (ids' & c & info & [= <-] & Hin & Hc & Hok). right.
      exists c, info. by rewrite elem_of_elements.
  - split; [done|]. by intros (? & ? & ? & ? & _).
Qed.

Lemma disconnect_all_index_other (reason : string) (failed : list string)
    m s s' :
  (∀ c info, c ∈ failed → connections m !! c = Some info →
             session_id info = s) →
  s' ≠ s →
  session_connections (foldl (λ m c, disconnect c reason m) m failed) !! s'
  = session_connections m !! s'.
Proof.
  revert m. induction failed as [|c0 failed IH]; intros m Hsess Hne;
    cbn [foldl]; [done|].
  rewrite IH; [|..|done].
  - destruct (connections m !! c0) as [info|] eqn:Hc0.
    + apply (disconnect_index_other c0 reason m info); [done|].
      rewrite (Hsess c0 info); [done|set_solver|done].
    + by rewrite disconnect_absent.
  - intros c info Hin Hc. rewrite disconnect_connections in Hc.
    apply lookup_delete_Some in Hc as [_ Hc].
    apply (Hsess c info); [set_solver|done].
Qed.

(** X22: a broadcast to one session of a consistent manager leaves the other
    sessions alone: their index entries and the records of their connections
    are as before. *)
Theorem send_event_other_sessions s m :
  consistent m →
  let m' := (send_event send_text event s m).2 in
  (∀ s', s' ≠ s →
     session_connections m' !! s' = session_connections m !! s') ∧
  (∀ c info, connections m !! c = Some info → session_id info ≠ s →
     connections m' !! c = Some info).
Proof.
  intros Hm m'. subst m'.
  destruct (session_connections m !! s) as [ids|] eqn:Hs;
    [|by rewrite send_event_no_session].
  rewrite (send_event_unfold send_text event s m ids Hs).
  assert (Hids : ∀ c info, c ∈ ids → connections m !! c = Some info →
                           session_id info = s).
  { intros c info Hin Hc. destruct Hm as [_ Htab]. symmetry.
    apply (Htab c info Hc). by exists ids. }
  split.
  - intros s' Hne.
    rewrite (disconnect_all_index_other "send_failure" _ _ s); [done| |done].
    intros c info Hin Hc. cbn [connections] in Hc.
    apply send_loop_failed in Hin; [|apply NoDup_elements].
    destruct Hin as [Hin|[Hin _]]; [set_solver|].
    rewrite send_loop_connections in Hc by apply NoDup_elements.
    rewrite decide_True in Hc by done. simpl in Hc.
    destruct (connections m !! c) as [info0|] eqn:Hc0; [|done].
    simpl in Hc. simplify_eq. rewrite after_send_session.
    apply (Hids c info0); [by apply elem_of_elements|done].
  - intros c info Hc Hsess.
    assert (Hnotin : c ∉ ids).
    { intros Hin. by apply Hsess, (Hids c info). }
    rewrite cleanup_connections. rewrite decide_False.
    + cbn [connections].
      rewrite send_loop_connections by apply NoDup_elements.
      rewrite decide_False by by rewrite elem_of_elements. done.
    + rewrite send_loop_failed by apply NoDup_elements. simpl.
      rewrite elem_of_elements. set_solver.
Qed.

End SendEventMore.

Lemma send_event_returns_success_witness :
  (send_event first_fails Models.token_event "S" three_connections).1 = true.
Proof.
  apply (send_event_returns_success first_fails Models.token_event "S"
           three_connections).
  exists {["c1"; "c2"]}, "c2", (mkConnectionInfo 2%N "S" 0 0 0 true).
  split_and!; [by vm_compute|set_solver|by vm_compute|reflexivity].
Defined.

Lemma send_event_other_sessions_witness :
  session_connections
    (send_event peer_gone Models.token_event "S" three_connections).2 !! "T"
  = session_connections three_connections !! "T".
Proof.
  apply (send_event_other_sessions peer_gone Models.token_event "S"
           three_connections); [|done].
  repeat (apply connect_consistent; [|reflexivity]).
  apply consistent_new.
Defined.

(** *** The heartbeat pass *)

Lemma send_to_connection_other
    (send_text : WebSocket → Models.json → send_result) c c'
    (data : Models.json) m :
  c' ≠ c →
  connections (send_to_connection send_text c data m).2 !! c'
  = connections m !! c'.
Proof.
  intros Hne. unfold send_to_connection.
  destruct (connections m !! c) as [info|]; [|done].
  destruct (send_text (websocket info) data); simpl.
  - by rewrite lookup_insert_ne.
  - destruct (_ <=? _)%Z; simpl; rewrite ?disconnect_connections;
      simpl; by rewrite ?lookup_delete_ne, lookup_insert_ne.
  - destruct (_ <=? _)%Z; simpl; rewrite ?disconnect_connections;
      simpl; by rewrite ?lookup_delete_ne, lookup_insert_ne.
Qed.

Lemma ping_connection_other
    (send_text : WebSocket → Models.json → send_result)
    (now_sent now_ping : Z) c c' m :
  c' ≠ c →
  connections (ping_connection send_text now_sent now_ping c m).2 !! c'
  = connections m !! c'.
Proof.
  intros Hne. unfold ping_connection.
  pose proof (send_to_connection_other send_text c c' (ping_data now_sent)
                m Hne) as Hsent.
  destruct (send_to_connection send_text c (ping_data now_sent) m)
    as [[] m1]; simpl in *; [|done].
  destruct (connections m1 !! c) as [info|]; simpl; [|done].
  by rewrite lookup_insert_ne.
Qed.

Section HeartbeatFacts.
Variable send_text : WebSocket → Models.json → send_result.
Variable now : Z.
Variable now_sent now_ping : string → Z.

Lemma heartbeat_body_invariants (st : heartbeat_state) c :
  consistent (hb_manager st) → index_nonempty (hb_manager st) →
  consistent
    (hb_manager (heartbeat_body send_text now now_sent now_ping st c)) ∧
  index_nonempty
    (hb_manager (heartbeat_body send_text now now_sent now_ping st c)).
Proof.
  intros Hm Hne. unfold heartbeat_body.
  destruct (connections (hb_manager st) !! c) as [info|]; [|done].
  destruct (_ <? _)%Z; [|done].
  pose proof (ping_connection_consistent send_text (now_sent c) (now_ping c)
                c (hb_manager st) Hm) as Hc.
  pose proof (ping_connection_nonempty send_text (now_sent c) (now_ping c)
                c (hb_manager st) Hne) as Hn.
  by destruct (ping_connection _ _ _ _ _) as [ok m1].
Qed.

Lemma heartbeat_loop_invariants (size0 : nat) (l : list string)
    (st : heartbeat_state) :
  consistent (hb_manager st) → index_nonempty (hb_manager st) →
  consistent
    (hb_manager
       (heartbeat_loop send_text now now_sent now_ping size0 l st).2) ∧
  index_nonempty
    (hb_manager
       (heartbeat_loop send_text now now_sent now_ping size0 l st).2).
Proof.
  revert st. induction l as [|c l IH]; intros st Hm Hne; simpl.
  - by case_decide.
  - case_decide; [|done].
    destruct (heartbeat_body_invariants st c Hm Hne). by apply IH.
Qed.

(** A connection pinged at most 60 seconds ago. *)
Lemma heartbeat_body_fresh (st : heartbeat_state) c c'
    (info : ConnectionInfo) :
  connections (hb_manager st) !! c' = Some info →
  (now - last_ping info <= 60000000)%Z →
  c' ∉ stale_connections st →
  connections
    (hb_manager (heartbeat_body send_text now now_sent now_ping st c))
    !! c' = Some info ∧
  c' ∉ stale_connections
         (heartbeat_body send_text now now_sent now_ping st c).
Proof.
  intros Hc' Hfresh Hstale. unfold heartbeat_body.
  destruct (decide (c = c')) as [->|Hne].
  - rewrite Hc'. unfold heartbeat_interval.
    by destruct (Z.ltb_spec (30 * 2 * 1000000) (now - last_ping info));
      [lia|].
  - destruct (connections (hb_manager st) !! c) as [info0|]; [|done].
    destruct (_ <? _)%Z; [|done].
    pose proof (ping_connection_other send_text (now_sent c) (now_ping c)
                  c c' (hb_manager st)) as Hother.
    destruct (ping_connection _ _ _ _ _) as [ok m1]. simpl in *.
    rewrite Hother by done. split; [done|].
    destruct ok; [done|]. set_solver.
Qed.

Lemma heartbeat_loop_fresh (size0 : nat) (l : list string)
    (st : heartbeat_state) c' (info : ConnectionInfo) :
  connections (hb_manager st) !! c' = Some info →
  (now - last_ping info <= 60000000)%Z →
  c' ∉ stale_connections st →
  connections
    (hb_manager (heartbeat_loop send_text now now_sent now_ping size0 l st).2)
    !! c' = Some info ∧
  c' ∉ stale_connections
         (heartbeat_loop send_text now now_sent now_ping size0 l st).2.
Proof.
  revert st. induction l as [|c l IH]; intros st Hc' Hfresh Hstale; simpl.
  - by case_decide.
  - case_decide; [|done].
    destruct (heartbeat_body_fresh st c c' info Hc' Hfresh Hstale).
    by apply IH.
Qed.

(** X23: one pass of the heartbeat monitor keeps the manager consistent and
    leaves no session of the index with an empty set, also when the pass is
    cut short; a connection whose last ping is at most 60 seconds old keeps
    its record as it is. *)
Theorem heartbeat_pass_effect m :
  consistent m → index_nonempty m →
  let m' := heartbeat_pass send_text now now_sent now_ping m in
  consistent m' ∧ index_nonempty m' ∧
  ∀ c info,
    connections m !! c = Some info →
    (now - last_ping info <= 60000000)%Z →
    connections m' !! c = Some info.
Proof.
  intros Hm Hne m'. subst m'. unfold heartbeat_pass.
  pose proof (heartbeat_loop_invariants (size (connections m))
                (map_to_list (connections m)).*1 (mkHeartbeat m []) Hm Hne)
    as [Hc Hn].
  pose proof (heartbeat_loop_fresh (size (connections m))
                (map_to_list (connections m)).*1 (mkHeartbeat m []))
    as Hfresh.
  destruct (heartbeat_loop _ _ _ _ _ _ _) as [[] st]; simpl in *.
  - split_and!.
    + by apply disconnect_all_consistent.
    + by apply disconnect_all_nonempty.
    + intros c info Hlook Hage.
      destruct (Hfresh c info Hlook Hage) as [Hkept Hnot]; [set_solver|].
      rewrite disconnect_all_connections. by rewrite decide_False.
  - split_and!; [done..|].
    intros c info Hlook Hage.
    by destruct (Hfresh c info Hlook Hage) as [Hkept Hnot]; [set_solver|].
Qed.

End HeartbeatFacts.

Lemma heartbeat_pass_effect_witness :
  connections
    (heartbeat_pass peer_gone 70000000 (λ _, 70000000%Z) (λ _, 70000000%Z)
       (connect None "c2" 50000000 50000000 2%N "S" one_connection).2)
    !! "c2" = Some (mkConnectionInfo 2%N "S" 50000000 50000000 0 true).
Proof.
  apply (heartbeat_pass_effect peer_gone 70000000 (λ _, 70000000%Z)
           (λ _, 70000000%Z)
           (connect None "c2" 50000000 50000000 2%N "S" one_connection).2).
  - repeat (apply connect_consistent; [|reflexivity]).
    apply consistent_new.
  - repeat apply connect_nonempty. intros s ids. simpl.
    by rewrite lookup_empty.
  - by vm_compute.
  - simpl. lia.
Defined.

End WebSocketManagerMore.
